(** * Load shedding: the priority-tiered combinatorial selection engine

    A shallow embedding of [Load_Shedding.py]: the class [Node], the
    subset matcher [generate_combinations] and the tiered selector
    [find_combination], together with the module-level catalog
    [nodes_by_priority]; and, around them, the drawing of the network
    [plot_network], the log file ([log_to_file], [clear_log], the display of
    the log in the sidebar) and the handler of the run button.

    Python objects live in a store and are handled through references, so
    that aliasing and (absence of) mutation can be stated.  Power values are
    the integers the program works with ([Node(10, 1)], and the input
    widgets are created with integer bounds), hence [Z]. *)

From Stdlib Require Import ZArith List Lia Ascii.
From stdpp Require Import base option list gmap sets fin_maps fin_sets strings pretty.

Open Scope Z_scope.

(** ** Data model *)

(** A reference to a [Node] object. *)
Definition loc := positive.

(** [class Node]: the three attributes set by [__init__]. *)
Record Node := mkNode {
  real_power : Z;
  priority : Z;
  selected : bool
}.

(** The object store. *)
Abbreviation heap := (gmap loc Node).

(** An exception that escapes a call.  [KeyError] is what indexing a dict
    with a missing key raises; [Dangling] only arises in the model, for a
    reference that is not in the store (Python references never dangle). *)
Inductive exn :=
| KeyError (k : Z)
| Dangling (l : loc).

Inductive res (A : Type) :=
| Ok (a : A)
| Raise (e : exn).
Arguments Ok {A} a.
Arguments Raise {A} e.

(** ** A state and exception monad for Python statements *)

Definition M (A : Type) : Type := heap -> res A * heap.

#[global] Instance M_ret : MRet M := fun A (a : A) h => (Ok a, h).

#[global] Instance M_bind : MBind M := fun A B (f : A -> M B) (m : M A) h =>
  match m h with
  | (Ok a, h') => f a h'
  | (Raise e, h') => (Raise e, h')
  end.

Definition raise {A} (e : exn) : M A := fun h => (Raise e, h).

Definition run {A} (m : M A) (h : heap) : res A * heap := m h.

(** [for x in xs: body], the loop's variables threaded as [s]. *)
Fixpoint for_in {A S} (xs : list A) (s : S) (body : A -> S -> M S) : M S :=
  match xs with
  | [] => mret s
  | x :: xs' => s' ← body x s; for_in xs' s' body
  end.

(** [node.real_power]: an attribute read. *)
Definition get_real_power (l : loc) : M Z :=
  fun h =>
    match h !! l with
    | Some n => (Ok (real_power n), h)
    | None => (Raise (Dangling l), h)
    end.

(** [Node(real_power, priority)]: allocates a new object, [selected] is
    [False]. *)
Definition Node_init (rp pr : Z) : M loc :=
  fun h =>
    let l := fresh (dom h) in
    (Ok l, <[l := mkNode rp pr false]> h).

(** [d[k]] on a dict. *)
Definition getitem {V} (d : gmap Z V) (k : Z) : M V :=
  match d !! k with
  | Some v => mret v
  | None => raise (KeyError k)
  end.

(** ** Library functions the program uses *)

(** [itertools.combinations(l, r)]: the [r]-length subsequences of [l], in
    lexicographic order of the positions chosen. *)
Fixpoint combinations {A} (l : list A) (r : nat) {struct l} : list (list A) :=
  match r, l with
  | O, _ => [[]]
  | S _, [] => []
  | S r', x :: t => map (cons x) (combinations t r') ++ combinations t r
  end.

(** [range(start, stop, -1)]. *)
Definition range_down (start stop : Z) : list Z :=
  map (fun i => start - Z.of_nat i) (seq 0 (Z.to_nat (start - stop))).

(** [sum(node.real_power for node in comb)]. *)
Definition sum_real_power (comb : list loc) : M Z :=
  for_in comb 0 (fun node acc => p ← get_real_power node; mret (acc + p)).

(** ** The subset matcher *)

(** The body of the inner loop of [generate_combinations]: one combination
    examined, [best_combination] and [best_power] updated. *)
Definition examine (target_real tolerance : Z) (comb : list loc)
    (best : option (list loc) * option Z) : M (option (list loc) * option Z) :=
  let '(best_combination, best_power) := best in
  total_power ← sum_real_power comb;
  if (target_real - tolerance <=? total_power) && (total_power <=? target_real + tolerance)
  then
    if match best_power with
       | None => true
       | Some bp => Z.abs (total_power - target_real) <? Z.abs (bp - target_real)
       end
    then mret (Some comb, Some total_power)
    else mret (best_combination, best_power)
  else mret (best_combination, best_power).

(** [generate_combinations(nodes, target_real, tolerance)];
    [seq 1 (length nodes)] is [range(1, len(nodes) + 1)]. *)
Definition generate_combinations (nodes : list loc) (target_real tolerance : Z)
    : M (option (list loc) * option Z) :=
  for_in (seq 1 (length nodes)) (None, None)
    (fun r best => for_in (combinations nodes r) best (examine target_real tolerance)).

(** ** The tiered selector *)

(** The pool of one radius: the inner loop of [find_combination],
    [nodes_to_check.extend(nodes_by_priority[priority])] for [priority] in
    [range(5, 6 - r, -1)]. *)
Definition nodes_to_check (nodes_by_priority : gmap Z (list loc)) (r : Z) : M (list loc) :=
  for_in (range_down 5 (6 - r)) []
    (fun priority acc => tier ← getitem nodes_by_priority priority; mret (acc ++ tier)).

(** The loop over the radii, with its [break].  [if best_combination:] is
    the truth value of a tuple or [None]: true exactly for a non-empty
    tuple.  [best_power] is the local variable that the last call of the
    matcher assigned, which is what the function returns when the loop runs
    out; it is unbound before the first iteration, and the loop has one. *)
Fixpoint radius_loop (radii : list Z) (nodes_by_priority : gmap Z (list loc))
    (target_real tolerance : Z) (selected_nodes : gset loc) (best_power : option Z)
    : M (gset loc * option Z * bool) :=
  match radii with
  | [] => mret (selected_nodes, best_power, false)
  | r :: radii' =>
      pool ← nodes_to_check nodes_by_priority r;
      '(best_combination, best_power) ← generate_combinations pool target_real tolerance;
      match best_combination with
      | Some ((_ :: _) as comb) =>
          mret (selected_nodes ∪ list_to_set comb, best_power, true)
      | _ => radius_loop radii' nodes_by_priority target_real tolerance selected_nodes best_power
      end
  end.

(** [find_combination(nodes_by_priority, target_real, tolerance)]; the radii
    are [range(5, 0, -1)]. *)
Definition find_combination (nodes_by_priority : gmap Z (list loc))
    (target_real tolerance : Z) : M (gset loc * option Z * bool) :=
  radius_loop (range_down 5 0) nodes_by_priority target_real tolerance ∅ None.

(** ** The catalog of the program *)

(** The module-level statement [nodes_by_priority = {1: [Node(10, 1), ...], ...}]:
    the fourteen objects are created in the order of the dict display. *)
Definition make_tier (pr : Z) (powers : list Z) : M (list loc) :=
  for_in powers [] (fun rp acc => l ← Node_init rp pr; mret (acc ++ [l])).

Definition make_catalog : M (gmap Z (list loc)) :=
  t1 ← make_tier 1 [10; 20; 30];
  t2 ← make_tier 2 [15; 25; 35];
  t3 ← make_tier 3 [40; 50];
  t4 ← make_tier 4 [60; 70; 80];
  t5 ← make_tier 5 [90; 100; 110];
  mret (<[1 := t1]> (<[2 := t2]> (<[3 := t3]> (<[4 := t4]> (<[5 := t5]> ∅))))).

(** The store and the catalog once the module is loaded. *)
Definition heap0 : heap := snd (run make_catalog ∅).

Definition nodes_by_priority : gmap Z (list loc) :=
  match fst (run make_catalog ∅) with
  | Ok d => d
  | Raise _ => ∅
  end.

(** ** Vocabulary of the claims *)

(** The power rating of the object behind a reference. *)
Definition power (h : heap) (l : loc) : Z :=
  match h !! l with
  | Some n => real_power n
  | None => 0
  end.

(** The summed power of a subset. *)
Definition total (h : heap) (s : list loc) : Z :=
  foldr (fun l acc => power h l + acc) 0 s.

(** The summed power of a set of loads. *)
Definition set_total (h : heap) (X : gset loc) : Z :=
  set_fold (fun l acc => power h l + acc) 0 X.

(** The tolerance band, and the deviation from the target. *)
Definition in_band (target_real tolerance p : Z) : Prop :=
  target_real - tolerance <= p <= target_real + tolerance.

Definition deviation (target_real p : Z) : Z := Z.abs (p - target_real).

(** Every reference of the list is in the store. *)
Definition allocated (h : heap) (nodes : list loc) : Prop :=
  Forall (fun l => is_Some (h !! l)) nodes.

(** The order in which the matcher examines the subsets. *)
Definition enumeration (nodes : list loc) : list (list loc) :=
  flat_map (combinations nodes) (seq 1 (length nodes)).

(** ** Vocabulary of the proofs *)

(** [m] leaves the store as it found it, whether it returns or raises. *)
Definition read_only {A} (m : M A) : Prop := forall h, snd (m h) = h.

(** What [examine] computes when the references of [comb] are in the store,
    and what the two loops of the matcher then compute on the list [L] of
    the subsets they go through. *)
Definition choose (h : heap) (t tol : Z) (comb : list loc)
    (best : option (list loc) * option Z) : option (list loc) * option Z :=
  if (t - tol <=? total h comb) && (total h comb <=? t + tol)
  then
    if match best.2 with
       | None => true
       | Some bp => Z.abs (total h comb - t) <? Z.abs (bp - t)
       end
    then (Some comb, Some (total h comb))
    else best
  else best.

Definition scan (h : heap) (t tol : Z) (L : list (list loc)) : option (list loc) * option Z :=
  foldl (fun best comb => choose h t tol comb best) (None, None) L.

(** The result of scanning a list [L] of subsets in order. *)
Inductive outcome_of (h : heap) (t tol : Z) (L : list (list loc))
    : option (list loc) * option Z -> Prop :=
| no_match :
    (forall s, s ∈ L -> ~ in_band t tol (total h s)) ->
    outcome_of h t tol L (None, None)
| a_match (i : nat) (comb : list loc) :
    L !! i = Some comb ->
    in_band t tol (total h comb) ->
    (forall j s, L !! j = Some s -> in_band t tol (total h s) ->
       deviation t (total h comb) <= deviation t (total h s)) ->
    (forall j s, (j < i)%nat -> L !! j = Some s -> in_band t tol (total h s) ->
       deviation t (total h comb) < deviation t (total h s)) ->
    outcome_of h t tol L (Some comb, Some (total h comb)).

(** The loads the catalog lists under a key, none when the key is absent. *)
Definition tier (nbp : gmap Z (list loc)) (p : Z) : list loc := default [] (nbp !! p).

(** The tiers [nodes_to_check] concatenates at radius [r]. *)
Definition pool_of (nbp : gmap Z (list loc)) (r : Z) : list loc :=
  flat_map (tier nbp) (range_down 5 (6 - r)).

(** A radius yields no match. *)
Definition no_match_at (nbp : gmap Z (list loc)) (t tol : Z) (h : heap) (r : Z) : Prop :=
  exists pool, run (nodes_to_check nbp r) h = (Ok pool, h) /\
    run (generate_combinations pool t tol) h = (Ok (None, None), h).

(** A radius yields the match [comb] of total [p]. *)
Definition match_at (nbp : gmap Z (list loc)) (t tol : Z) (h : heap) (r : Z)
    (comb : list loc) (p : Z) : Prop :=
  exists pool, run (nodes_to_check nbp r) h = (Ok pool, h) /\
    run (generate_combinations pool t tol) h = (Ok (Some comb, Some p), h).

(** Tier [p] of the catalog: listed, without a load twice, each load in the
    store with [p] as its priority. *)
Definition tier_ok (h : heap) (nbp : gmap Z (list loc)) (p : Z) : Prop :=
  exists nodes, nbp !! p = Some nodes /\ NoDup nodes /\
    Forall (fun l => exists n, h !! l = Some n /\ priority n = p) nodes.

(** A tier catalog: the five tiers 1 to 5. *)
Definition catalog_ok (h : heap) (nbp : gmap Z (list loc)) : Prop :=
  forall p, 1 <= p <= 5 -> tier_ok h nbp p.

(** The priorities of the loads of a list, as the store has them. *)
Definition priorities (h : heap) (nodes : list loc) : list (option Z) :=
  map (fun l => priority <$> h !! l) nodes.


(** Modelled from the spec: the pool the selector is said to search at
    radius [r], the tiers 5 down to [r]; at radius 1 the full catalog. *)
Definition stated_pool (nbp : gmap Z (list loc)) (r : Z) : list loc :=
  flat_map (tier nbp) (range_down 5 (r - 1)).

(** A catalog that lists one object twice in its tier 5, as
    [n = Node(50, 5); {1: [], 2: [], 3: [], 4: [], 5: [n, n]}] builds it. *)
Definition make_alias_catalog : M (gmap Z (list loc)) :=
  n ← Node_init 50 5;
  mret (<[1 := []]> (<[2 := []]> (<[3 := []]> (<[4 := []]> (<[5 := [n; n]]> ∅))))).

Definition alias_heap : heap := snd (run make_alias_catalog ∅).

Definition alias_catalog : gmap Z (list loc) :=
  match fst (run make_alias_catalog ∅) with
  | Ok d => d
  | Raise _ => ∅
  end.

(** ** The network drawing *)

(** [node.priority]: an attribute read. *)
Definition get_priority (l : loc) : M Z :=
  fun h =>
    match h !! l with
    | Some n => (Ok (priority n), h)
    | None => (Raise (Dangling l), h)
    end.

(** [range(start, stop)]. *)
Definition range_up (start stop : Z) : list Z :=
  map (fun i => start + Z.of_nat i) (seq 0 (Z.to_nat (stop - start))).

(** The line feed and the double quote of the string literals. *)
Definition nl : string := String "010"%char EmptyString.
Definition dq : string := String "034"%char EmptyString.

(** What [plot_network] does to the pyvis object it builds and returns: the
    calls it makes on it, the constructor first, in order.  They are
    recorded, not interpreted, and each is taken to return. *)
Inductive net_call :=
| Network_new (height width bgcolor font_color : string) (notebook : bool)
| add_node (n_id : Z) (label title color : string)
| add_edge (source dest : Z) (color : string)
| set_options (options : string).

(** The two f-strings of [add_node]; an integer is formatted as by [str]. *)
Definition node_label (node_id rp : Z) (qun : string) (pr : Z) : string :=
  "Node " +:+ pretty (node_id + 1) +:+ nl +:+
  "Rating: " +:+ pretty rp +:+ " " +:+ qun +:+ nl +:+
  "Priority: " +:+ pretty pr.

Definition node_title (rp pr : Z) : string :=
  "Real Power: " +:+ pretty rp +:+ " kW" +:+ nl +:+
  "Priority: " +:+ pretty pr.

(** The argument of [net.set_options]. *)
Definition network_options : string :=
  " " +:+ nl +:+
  "    var options = {" +:+ nl +:+
  "      " +:+ dq +:+ "physics" +:+ dq +:+ ": {" +:+ nl +:+
  "        " +:+ dq +:+ "enabled" +:+ dq +:+ ": false" +:+ nl +:+
  "      }," +:+ nl +:+
  "      " +:+ dq +:+ "nodes" +:+ dq +:+ ": {" +:+ nl +:+
  "        " +:+ dq +:+ "shape" +:+ dq +:+ ": " +:+ dq +:+ "dot" +:+ dq +:+ "," +:+ nl +:+
  "        " +:+ dq +:+ "size" +:+ dq +:+ ": 20," +:+ nl +:+
  "        " +:+ dq +:+ "font" +:+ dq +:+ ": {" +:+ nl +:+
  "          " +:+ dq +:+ "size" +:+ dq +:+ ": 14" +:+ nl +:+
  "        }" +:+ nl +:+
  "      }" +:+ nl +:+
  "    }" +:+ nl +:+
  "    ".

(** [node_map[node]] on the dict keyed by [Node] objects; the [KeyError]
    of a missing key carries the reference as a number. *)
Definition getitem_node (node_map : gmap loc Z) (node : loc) : M Z :=
  match node_map !! node with
  | Some v => mret v
  | None => raise (KeyError (Zpos node))
  end.

(** The body of the first loop of [plot_network]: one node numbered,
    coloured and added.  The variables of the loop are the network, [node_id]
    and [node_map]; the label reads the power and the priority, and so does
    the title. *)
Definition plot_node (qun : string) (selected_nodes : gset loc) (node : loc)
    (st : list net_call * Z * gmap loc Z) : M (list net_call * Z * gmap loc Z) :=
  let '(net, node_id, node_map) := st in
  let node_map := <[node := node_id]> node_map in
  let node_color := if bool_decide (node ∈ selected_nodes) then "red" else "#87CEEB" in
  rp ← get_real_power node;
  pr ← get_priority node;
  rp' ← get_real_power node;
  pr' ← get_priority node;
  mret (net ++ [add_node node_id (node_label node_id rp qun pr) (node_title rp' pr') node_color],
        node_id + 1, node_map).

(** The body of the innermost loop of the edges. *)
Definition plot_edge (node_map : gmap loc Z) (node child : loc) (net : list net_call)
    : M (list net_call) :=
  source ← getitem_node node_map node;
  dest ← getitem_node node_map child;
  mret (net ++ [add_edge source dest "#DCDCDC"]).

(** [plot_network(nodes_by_priority, selected_nodes)], [None] standing for
    the default of [selected_nodes]; [qun] is the global variable that the
    labels read. *)
Definition plot_network (qun : string) (nodes_by_priority : gmap Z (list loc))
    (selected_nodes : option (gset loc)) : M (list net_call) :=
  let selected_nodes :=
    match selected_nodes with
    | None => ∅
    | Some s => s
    end in
  let net := [Network_new "600px" "100%" "#ffffff" "black" true] in
  '(net, node_id, node_map) ←
    for_in (range_up 1 6) (net, 0, ∅)
      (fun priority st =>
         tier ← getitem nodes_by_priority priority;
         for_in tier st (plot_node qun selected_nodes));
  net ←
    for_in (range_up 1 5) net
      (fun priority net =>
         tier ← getitem nodes_by_priority priority;
         for_in tier net
           (fun node net =>
              children ← getitem nodes_by_priority (priority + 1);
              for_in children net (plot_edge node_map node)));
  mret (net ++ [set_options network_options]).

(** ** Vocabulary of the drawing *)

(** The priority of the object behind a reference. *)
Definition prio (h : heap) (l : loc) : Z :=
  match h !! l with
  | Some n => priority n
  | None => 0
  end.

(** The loads of the tiers 1 to 5, in the order [plot_network] numbers
    them. *)
Definition all_nodes (nbp : gmap Z (list loc)) : list loc :=
  flat_map (tier nbp) (range_up 1 6).

(** The five tiers are listed, their loads in the store. *)
Definition catalog_listed (h : heap) (nbp : gmap Z (list loc)) : Prop :=
  forall p, 1 <= p <= 5 -> exists nodes, nbp !! p = Some nodes /\ allocated h nodes.

(** The node drawn for a load under the number [k]: number, label, title
    and colour. *)
Definition drawn_node (qun : string) (sel : gset loc) (h : heap) (k : Z) (node : loc)
    : Z * string * string * string :=
  (k, node_label k (power h node) qun (prio h node),
   node_title (power h node) (prio h node),
   if bool_decide (node ∈ sel) then "red" else "#87CEEB").

(** The [add_node] calls for a list of loads, numbered from [k]. *)
Fixpoint node_calls (qun : string) (sel : gset loc) (h : heap) (nodes : list loc) (k : Z)
    : list net_call :=
  match nodes with
  | [] => []
  | node :: rest =>
      (let '(i, label, title, color) := drawn_node qun sel h k node in
       add_node i label title color) :: node_calls qun sel h rest (k + 1)
  end.

(** [node_map] once a list of loads is numbered from [k]. *)
Fixpoint number_nodes (nodes : list loc) (k : Z) (m : gmap loc Z) : gmap loc Z :=
  match nodes with
  | [] => m
  | node :: rest => number_nodes rest (k + 1) (<[node := k]> m)
  end.

(** The [add_edge] calls under a [node_map]. *)
Definition edge_calls (m : gmap loc Z) (nbp : gmap Z (list loc)) : list net_call :=
  flat_map (fun p =>
    flat_map (fun node =>
      flat_map (fun child => [add_edge (m !!! node) (m !!! child) "#DCDCDC"])
        (tier nbp (p + 1)))
      (tier nbp p))
    (range_up 1 5).

(** The nodes and the edges a network was given, in order. *)
Definition added_nodes (net : list net_call) : list (Z * string * string * string) :=
  flat_map (fun c =>
    match c with
    | add_node i label title color => [(i, label, title, color)]
    | _ => []
    end) net.

Definition added_edges (net : list net_call) : list (Z * Z) :=
  flat_map (fun c =>
    match c with
    | add_edge a b _ => [(a, b)]
    | _ => []
    end) net.

(** The numbers of the nodes a network was given, in order, and those of
    its red nodes. *)
Definition node_ids (net : list net_call) : list Z :=
  map (fun d => d.1.1.1) (added_nodes net).

Definition red_ids (net : list net_call) : list Z :=
  map (fun d => d.1.1.1) (filter (fun d => d.2 = "red") (added_nodes net)).

(** The set [plot_network] colours by: the empty set for the default. *)
Definition chosen (selected_nodes : option (gset loc)) : gset loc :=
  match selected_nodes with
  | None => ∅
  | Some s => s
  end.

(** ** The log file *)

(** Python's [str] operations that the log code uses.  A [str] is a byte
    string here; the operations are Python's on ASCII text, which is what
    the program writes to its log. *)

(** [s.startswith(p)]. *)
Fixpoint starts_with (p s : string) : bool :=
  match p, s with
  | EmptyString, _ => true
  | String _ _, EmptyString => false
  | String a p', String b s' => Ascii.eqb a b && starts_with p' s'
  end.

(** [sub in s]. *)
Fixpoint str_in (sub s : string) : bool :=
  starts_with sub s ||
  match s with
  | EmptyString => false
  | String _ s' => str_in sub s'
  end.

(** [s[n:]]. *)
Fixpoint str_drop (n : nat) (s : string) : string :=
  match n, s with
  | O, _ => s
  | S _, EmptyString => EmptyString
  | S n', String _ s' => str_drop n' s'
  end.

(** [s.split(sep, 1)], for a separator that is not empty. *)
Fixpoint split_once (sep s : string) : list string :=
  if starts_with sep s then [EmptyString; str_drop (String.length sep) s]
  else
    match s with
    | EmptyString => [EmptyString]
    | String a s' =>
        match split_once sep s' with
        | x :: rest => String a x :: rest
        | [] => [String a EmptyString]
        end
    end.

(** [s.split(sep)] for a separator of one character. *)
Fixpoint split_on (sep : ascii) (s : string) : list string :=
  match s with
  | EmptyString => [EmptyString]
  | String a s' =>
      if Ascii.eqb a sep then EmptyString :: split_on sep s'
      else
        match split_on sep s' with
        | x :: rest => String a x :: rest
        | [] => [String a EmptyString]
        end
  end.

(** [c.isspace()] on ASCII: tab to carriage return, the four separators
    28 to 31 and the space. *)
Definition is_space (c : ascii) : bool :=
  match c with
  | "009" | "010" | "011" | "012" | "013"
  | "028" | "029" | "030" | "031" | " " => true
  | _ => false
  end%char.

(** [s.lstrip()], [s.rstrip()] and [s.strip()]. *)
Fixpoint lstrip (s : string) : string :=
  match s with
  | EmptyString => EmptyString
  | String a s' => if is_space a then lstrip s' else s
  end.

Fixpoint rstrip (s : string) : string :=
  match s with
  | EmptyString => EmptyString
  | String a s' =>
      match rstrip s' with
      | EmptyString => if is_space a then EmptyString else String a EmptyString
      | r => String a r
      end
  end.

Definition strip (s : string) : string := lstrip (rstrip s).

(** Reading a file opened in text mode: a carriage return, alone or before
    a line feed, comes out as a line feed. *)
Fixpoint universal_newlines (s : string) : string :=
  match s with
  | EmptyString => EmptyString
  | String a s' =>
      if Ascii.eqb a "013"
      then
        match s' with
        | String b s'' =>
            if Ascii.eqb b "010" then String "010" (universal_newlines s'')
            else String "010" (universal_newlines s')
        | EmptyString => String "010" EmptyString
        end
      else String a (universal_newlines s')
  end.

(** The file [load_shedding_log.txt]: its text, or [None] when it does not
    exist. *)

(** [log_to_file(message)]; [timestamp] is what
    [datetime.now().strftime("%Y-%m-%d %H:%M:%S")] gives at the call.
    Opening with ["a"] creates the file when it does not exist. *)
Definition log_to_file (timestamp message : string) (log_file : option string)
    : option string :=
  let log_entry := timestamp +:+ " - " +:+ message +:+ nl in
  Some (match log_file with
        | Some text => text
        | None => EmptyString
        end +:+ log_entry).

(** The calls on [st] that show something in the page. *)
Inductive st_call :=
| st_success (body : string) (icon : option string)
| st_warning (body : string) (icon : option string)
| st_markdown (body : string)
| st_write (body : string).

(** [clear_log()]: the file after the call, and what is shown. *)
Definition clear_log (log_file : option string) : option string * st_call :=
  match log_file with
  | Some _ => (Some EmptyString, st_success "Log file cleared successfully! 🧹" None)
  | None => (log_file, st_warning "No log file found to clear. 🗑️" None)
  end.

(** The body of the loop of the sidebar: one line of the log shown, or
    skipped.  Under [" - " in line] the split has two parts. *)
Definition show_line (line : string) : list st_call :=
  if str_in " - " line then
    match split_once " - " line with
    | [timestamp; message] =>
        if str_in "shed successfully" message
        then [st_success (timestamp +:+ " - " +:+ message) (Some "✅")]
        else [st_warning (timestamp +:+ " - " +:+ message) (Some "❌")]
    | _ => []
    end
  else [].

(** The sidebar's display of the log, the block under
    [if os.path.exists("load_shedding_log.txt")]. *)
Definition show_log (log_file : option string) : list st_call :=
  match log_file with
  | Some text =>
      let log_contents := universal_newlines text in
      st_markdown "### Log File Contents:" ::
      flat_map show_line (split_on "010" (strip log_contents))
  | None => [st_write "No log file found."]
  end.

(** The message that the handler of the run button logs: the two f-strings
    under [if selected_nodes:].  [None] is formatted as by [str]. *)
Definition log_message (target_real tolerance : Z) (qun : string)
    (selected_nodes : gset loc) (selected_power : option Z) : string :=
  if bool_decide (selected_nodes ≠ ∅) then
    "User requested to shed " +:+ pretty target_real +:+ " " +:+ qun +:+
    " with tolerance " +:+ pretty tolerance +:+ " " +:+ qun +:+ ". " +:+
    match selected_power with
    | Some p => pretty p
    | None => "None"
    end +:+ " " +:+ qun +:+ " was shed successfully."
  else
    "User requested to shed " +:+ pretty target_real +:+ " " +:+ qun +:+
    " with tolerance " +:+ pretty tolerance +:+ " kW. No valid combination found.".

(** The handler of the run button, without the calls that only display
    (spinner, toast, headers, the html of the network, the messages): the
    selection, the network drawn with it, and the entry logged. *)
Definition run_load_shedding (timestamp qun : string)
    (nodes_by_priority : gmap Z (list loc)) (target_real tolerance : Z)
    (log_file : option string) : M (list net_call * option string) :=
  '(selected_nodes, selected_power, found_valid_combination) ←
    find_combination nodes_by_priority target_real tolerance;
  net ← plot_network qun nodes_by_priority (Some selected_nodes);
  mret (net,
        log_to_file timestamp
          (log_message target_real tolerance qun selected_nodes selected_power) log_file).

(** ** Vocabulary of the log *)

(** Every character of a string passes a test. *)
Fixpoint all_chars (P : ascii -> bool) (s : string) : bool :=
  match s with
  | EmptyString => true
  | String a s' => P a && all_chars P s'
  end.

(** The last character of a string. *)
Fixpoint last_char (s : string) : option ascii :=
  match s with
  | EmptyString => None
  | String a s' =>
      match last_char s' with
      | None => Some a
      | Some b => Some b
      end
  end.

(** An ASCII character. *)
Definition is_ascii (c : ascii) : bool :=
  match c with
  | Ascii _ _ _ _ _ _ _ b7 => negb b7
  end.

(** An ASCII character that is neither a line feed nor a carriage return. *)
Definition plain (c : ascii) : bool :=
  negb (Ascii.eqb c "010") && negb (Ascii.eqb c "013") && is_ascii c.

(** A timestamp that stays in one piece when its line is read back: ASCII,
    on one line, not starting with white space, without a space before a
    hyphen and not ending with a space.  The format of [log_to_file],
    year-month-day hour:minute:second, is such. *)
Definition clean_stamp (timestamp : string) : bool :=
  all_chars plain timestamp &&
  match timestamp with
  | String a _ => negb (is_space a)
  | EmptyString => false
  end &&
  negb (str_in " -" timestamp) &&
  match last_char timestamp with
  | Some a => negb (Ascii.eqb a " ")
  | None => false
  end.

(** A message that stays in one piece: ASCII, on one line, not empty and
    not ending with white space. *)
Definition clean_message (message : string) : bool :=
  all_chars plain message &&
  match last_char message with
  | Some a => negb (is_space a)
  | None => false
  end.

Definition clean_entry (e : string * string) : bool :=
  clean_stamp e.1 && clean_message e.2.

(** The file after the entries [es], timestamp and message, are logged in
    order. *)
Definition logged (es : list (string * string)) (log_file : option string)
    : option string :=
  foldl (fun f e => log_to_file e.1 e.2 f) log_file es.

(** What the sidebar shows for an entry. *)
Definition shown (e : string * string) : st_call :=
  if str_in "shed successfully" e.2
  then st_success (e.1 +:+ " - " +:+ e.2) (Some "✅")
  else st_warning (e.1 +:+ " - " +:+ e.2) (Some "❌").

(** The tiers the selector reads are listed, their loads in the store. *)
Definition tiers_ready (h : heap) (nbp : gmap Z (list loc)) : Prop :=
  forall p, 2 <= p <= 5 -> exists nodes, nbp !! p = Some nodes /\ allocated h nodes.

(** The loads of the tiers 5, 4, 3 and 2, in the order the selector lists
    them at its first radius. *)
Definition sheddable (nbp : gmap Z (list loc)) : list loc :=
  tier nbp 5 ++ tier nbp 4 ++ tier nbp 3 ++ tier nbp 2.

(** The line of an entry, without its line feed; the text of the file
    after the entries, and the same without the last line feed. *)
Definition entry_line (e : string * string) : string := e.1 +:+ " - " +:+ e.2.

Fixpoint text_of (es : list (string * string)) : string :=
  match es with
  | [] => EmptyString
  | e :: es' => entry_line e +:+ nl +:+ text_of es'
  end.

Fixpoint joined (es : list (string * string)) : string :=
  match es with
  | [] => EmptyString
  | e :: es' =>
      match es' with
      | [] => entry_line e
      | _ :: _ => entry_line e +:+ nl +:+ joined es'
      end
  end.

(** A character of a formatted integer: a digit or the minus sign. *)
Definition numeral_char (c : ascii) : bool :=
  match c with
  | "0" | "1" | "2" | "3" | "4" | "5" | "6" | "7" | "8" | "9" | "-" => true
  | _ => false
  end%char.

(** * Properties *)

(** ** The monad and the loops *)

Ltac unfold_monad := unfold run, mbind, M_bind, mret, M_ret, raise in *.

(** Membership in a list that is written out: one goal per element, each
    closed by arithmetic. *)
Ltac list_cases H :=
  repeat (apply elem_of_cons in H as [->|H]; [lia|]);
  by apply elem_of_nil in H.

Section loops.
Context {A S : Type}.
Implicit Types (xs : list A) (s : S) (body : A -> S -> M S) (h : heap).

Lemma for_in_cons x xs s body h :
  for_in (x :: xs) s body h =
  match body x s h with
  | (Ok s', h') => for_in xs s' body h'
  | (Raise e, h') => (Raise e, h')
  end.
Proof. reflexivity. Qed.

Lemma for_in_app xs ys s body h :
  for_in (xs ++ ys) s body h =
  match for_in xs s body h with
  | (Ok s', h') => for_in ys s' body h'
  | (Raise e, h') => (Raise e, h')
  end.
Proof.
  revert s h. induction xs as [|x xs IH]; intros s h; [reflexivity|].
  rewrite <- app_comm_cons, !for_in_cons.
  destruct (body x s h) as [[s'|e] h']; [apply IH | reflexivity].
Qed.

(** A loop whose body neither raises nor writes is a fold. *)
Lemma for_in_pure (f : A -> S -> S) xs body h :
  (forall x s, x ∈ xs -> body x s h = (Ok (f x s), h)) ->
  forall s, for_in xs s body h = (Ok (foldl (fun s x => f x s) s xs), h).
Proof.
  induction xs as [|x xs IH]; intros Hb s; [reflexivity|].
  rewrite for_in_cons, Hb by left. simpl. apply IH.
  intros y s' Hy. apply Hb. by right.
Qed.

(** Loop invariants, for loops that may raise. *)
Lemma for_in_inv (I : S -> Prop) xs body :
  (forall x s h s' h', x ∈ xs -> I s -> body x s h = (Ok s', h') -> I s') ->
  forall s h s' h', I s -> for_in xs s body h = (Ok s', h') -> I s'.
Proof.
  induction xs as [|x xs IH]; intros Hb s h s' h' Hs Hrun.
  - unfold_monad. simpl in Hrun. by inversion Hrun; subst.
  - rewrite for_in_cons in Hrun.
    destruct (body x s h) as [[s1|e] h1] eqn:E; [|discriminate].
    eapply IH; [| |exact Hrun].
    + intros y s0 h0 s0' h0' Hy. apply Hb. by right.
    + eapply Hb; [by left|exact Hs|exact E].
Qed.
End loops.

(** Two nested loops over [g r] for [r] in [rs] examine [flat_map g rs]. *)
Lemma for_in_flat_map {A B S} (g : A -> list B) (rs : list A) (s : S)
    (body : B -> S -> M S) (h : heap) :
  for_in rs s (fun r b => for_in (g r) b body) h = for_in (flat_map g rs) s body h.
Proof.
  revert s h. induction rs as [|r rs IH]; intros s h; [reflexivity|].
  simpl flat_map. rewrite for_in_app, for_in_cons.
  destruct (for_in (g r) s body h) as [[s'|e] h']; [apply IH | reflexivity].
Qed.

(** ** Statements that only read the store *)

Lemma read_only_ret {A} (a : A) : read_only (mret a).
Proof. by intros h. Qed.

Lemma read_only_raise {A} (e : exn) : read_only (raise (A:=A) e).
Proof. by intros h. Qed.

Lemma read_only_bind {A B} (m : M A) (f : A -> M B) :
  read_only m -> (forall a, read_only (f a)) -> read_only (m ≫= f).
Proof.
  intros Hm Hf h. unfold_monad. specialize (Hm h).
  destruct (m h) as [[a|e] h']; simpl in *; subst; [apply Hf | done].
Qed.

Lemma read_only_for_in {A S} (xs : list A) (body : A -> S -> M S) :
  (forall x s, read_only (body x s)) -> forall s, read_only (for_in xs s body).
Proof.
  intros Hb. induction xs as [|x xs IH]; intros s.
  - apply read_only_ret.
  - simpl. apply read_only_bind; [apply Hb | apply IH].
Qed.

Lemma read_only_get_real_power l : read_only (get_real_power l).
Proof. intros h. unfold get_real_power. by destruct (h !! l). Qed.

Lemma read_only_getitem {V} (d : gmap Z V) k : read_only (getitem d k).
Proof.
  unfold getitem. destruct (d !! k); [apply read_only_ret | apply read_only_raise].
Qed.

Lemma read_only_sum_real_power comb : read_only (sum_real_power comb).
Proof.
  apply read_only_for_in. intros l acc.
  apply read_only_bind; [apply read_only_get_real_power | intros; apply read_only_ret].
Qed.

Lemma read_only_examine t tol comb best : read_only (examine t tol comb best).
Proof.
  destruct best as [bc bp]. unfold examine.
  apply read_only_bind; [apply read_only_sum_real_power|].
  intros p. repeat case_match; apply read_only_ret.
Qed.

Lemma read_only_generate_combinations nodes t tol :
  read_only (generate_combinations nodes t tol).
Proof.
  apply read_only_for_in. intros r best.
  apply read_only_for_in. intros comb b. apply read_only_examine.
Qed.

Lemma read_only_nodes_to_check nbp r : read_only (nodes_to_check nbp r).
Proof.
  apply read_only_for_in. intros p acc.
  apply read_only_bind; [apply read_only_getitem | intros; apply read_only_ret].
Qed.

Lemma read_only_radius_loop radii nbp t tol sel bp :
  read_only (radius_loop radii nbp t tol sel bp).
Proof.
  revert sel bp. induction radii as [|r radii IH]; intros sel bp.
  - apply read_only_ret.
  - simpl. apply read_only_bind; [apply read_only_nodes_to_check|].
    intros pool. apply read_only_bind; [apply read_only_generate_combinations|].
    intros [bc bp']. destruct bc as [[|x c]|]; [apply IH | apply read_only_ret | apply IH].
Qed.

Lemma read_only_find_combination nbp t tol : read_only (find_combination nbp t tol).
Proof. apply read_only_radius_loop. Qed.

(** ** [combinations] and the enumeration order *)

Lemma elem_of_combinations {A} (l s : list A) (r : nat) :
  s ∈ combinations l r <-> sublist s l /\ length s = r.
Proof.
  revert s r. induction l as [|x t IH]; intros s r.
  - destruct r as [|r]; simpl.
    + rewrite list_elem_of_singleton. split.
      * intros ->. split; [constructor | done].
      * intros [Hs _]. by apply sublist_nil_r.
    + split; [by intros ?%elem_of_nil|].
      intros [->%sublist_nil_r Hlen]. discriminate.
  - destruct r as [|r]; simpl.
    + rewrite list_elem_of_singleton. split.
      * intros ->. split; [apply sublist_nil_l | done].
      * intros [_ Hlen]. by apply length_zero_iff_nil.
    + rewrite elem_of_app, list_elem_of_fmap, sublist_cons_r. split.
      * intros [(s' & -> & Hs')|Hs].
        -- apply IH in Hs' as [Hsub Hlen]. split; [right; eauto | simpl; lia].
        -- apply IH in Hs as [Hsub Hlen]. split; [by left | done].
      * intros [[Hsub|(s' & -> & Hsub)] Hlen].
        -- right. apply IH. done.
        -- left. exists s'. split; [done|]. apply IH. split; [done|]. simpl in Hlen. lia.
Qed.

(** The matcher examines exactly the non-empty subsets of the candidates. *)
Lemma elem_of_enumeration (nodes s : list loc) :
  s ∈ enumeration nodes <-> sublist s nodes /\ s <> [].
Proof.
  unfold enumeration. rewrite list_elem_of_In, in_flat_map. split.
  - intros (r & Hr%in_seq & Hs%list_elem_of_In%elem_of_combinations).
    destruct Hs as [Hsub Hlen]. split; [done|].
    intros ->. simpl in Hlen. lia.
  - intros [Hsub Hne]. exists (length s). split.
    + apply in_seq. apply sublist_length in Hsub.
      destruct s; [done|]. simpl in *. lia.
    + apply list_elem_of_In, elem_of_combinations. done.
Qed.

(** Sizes never decrease along the enumeration. *)
Lemma sizes_flat_map_seq {A} (l : list A) (a n i j : nat) (x y : list A) :
  (i <= j)%nat ->
  flat_map (combinations l) (seq a n) !! i = Some x ->
  flat_map (combinations l) (seq a n) !! j = Some y ->
  (a <= length x <= length y)%nat.
Proof.
  revert a i j x y. induction n as [|n IH]; intros a i j x y Hij Hi Hj; [done|].
  simpl in Hi, Hj.
  assert (Hlen : forall z, z ∈ combinations l a -> length z = a).
  { intros z Hz. by apply elem_of_combinations in Hz as [_ ?]. }
  apply lookup_app_Some in Hi as [Hi|[Hi1 Hi2]];
    apply lookup_app_Some in Hj as [Hj|[Hj1 Hj2]].
  - apply list_elem_of_lookup_2, Hlen in Hi.
    apply list_elem_of_lookup_2, Hlen in Hj. lia.
  - apply list_elem_of_lookup_2, Hlen in Hi.
    assert (S a <= length y <= length y)%nat; [|lia].
    eapply (IH (S a) _ _ y y); [|exact Hj2|exact Hj2]. lia.
  - apply lookup_lt_Some in Hj. lia.
  - assert (S a <= length x <= length y)%nat; [|lia].
    eapply (IH (S a)); [|exact Hi2|exact Hj2]. lia.
Qed.

Lemma enumeration_sizes (nodes : list loc) (i j : nat) (x y : list loc) :
  (i <= j)%nat ->
  enumeration nodes !! i = Some x ->
  enumeration nodes !! j = Some y ->
  (length x <= length y)%nat.
Proof.
  intros Hij Hi Hj.
  by destruct (sizes_flat_map_seq nodes 1 (length nodes) i j x y Hij Hi Hj).
Qed.

Lemma allocated_sublist h (s nodes : list loc) :
  sublist s nodes -> allocated h nodes -> allocated h s.
Proof.
  unfold allocated. rewrite !Forall_forall.
  intros Hsub Hall l Hl. apply Hall. eapply sublist_submseteq, elem_of_submseteq in Hsub; eauto.
Qed.

(** ** The matcher on a store that holds its candidates *)

Lemma sum_real_power_run h comb :
  allocated h comb -> sum_real_power comb h = (Ok (total h comb), h).
Proof.
  unfold sum_real_power. intros Hall.
  assert (G : forall acc,
    for_in comb acc (fun node acc => p ← get_real_power node; mret (acc + p)) h
    = (Ok (acc + total h comb), h)); [|by rewrite G].
  induction Hall as [|l comb [n Hn] Hall IH]; intros acc.
  - simpl. unfold_monad. f_equal. f_equal. lia.
  - rewrite for_in_cons. unfold_monad. unfold get_real_power. rewrite Hn.
    rewrite IH. simpl. unfold power at 1. rewrite Hn. f_equal. f_equal. lia.
Qed.

Lemma examine_run h t tol comb best :
  allocated h comb -> examine t tol comb best h = (Ok (choose h t tol comb best), h).
Proof.
  intros Hall. destruct best as [bc bp]. unfold examine, choose. unfold_monad.
  rewrite (sum_real_power_run h comb Hall). simpl.
  repeat case_match; reflexivity.
Qed.

Lemma generate_combinations_run h nodes t tol :
  allocated h nodes ->
  run (generate_combinations nodes t tol) h = (Ok (scan h t tol (enumeration nodes)), h).
Proof.
  intros Hall. unfold run, generate_combinations. rewrite for_in_flat_map.
  fold (enumeration nodes). unfold scan.
  apply (for_in_pure (choose h t tol)).
  intros comb best [Hsub _]%elem_of_enumeration.
  apply examine_run. by eapply allocated_sublist.
Qed.

Lemma in_band_test t tol p :
  (t - tol <=? p) && (p <=? t + tol) = true <-> in_band t tol p.
Proof. unfold in_band. rewrite andb_true_iff, !Z.leb_le. tauto. Qed.

Lemma scan_outcome h t tol L : outcome_of h t tol L (scan h t tol L).
Proof.
  unfold scan. induction L as [|x L IH] using rev_ind.
  - apply no_match. by intros s ?%elem_of_nil.
  - rewrite foldl_app. simpl.
    set (best := foldl _ _ L) in *. unfold choose.
    destruct ((t - tol <=? total h x) && (total h x <=? t + tol)) eqn:Eband.
    + apply in_band_test in Eband.
      destruct IH as [Hnone | i comb Hi Hin Hmin Hfirst]; simpl.
      * apply (a_match _ _ _ _ (length L) x).
        -- by rewrite lookup_app_r, Nat.sub_diag.
        -- done.
        -- intros j s Hj Hs. apply lookup_app_Some in Hj as [Hj|[_ Hj]].
           ++ apply list_elem_of_lookup_2 in Hj. by apply Hnone in Hj.
           ++ apply list_lookup_singleton_Some in Hj as [_ ->]. lia.
        -- intros j s Hlt Hj Hs. rewrite lookup_app_l in Hj by done.
           apply list_elem_of_lookup_2 in Hj. by apply Hnone in Hj.
      * fold (deviation t (total h x)). fold (deviation t (total h comb)).
        destruct (deviation t (total h x) <? deviation t (total h comb)) eqn:Elt.
        -- apply Z.ltb_lt in Elt. apply (a_match _ _ _ _ (length L) x).
           ++ by rewrite lookup_app_r, Nat.sub_diag.
           ++ done.
           ++ intros j s Hj Hs. apply lookup_app_Some in Hj as [Hj|[_ Hj]].
              ** specialize (Hmin j s Hj Hs). lia.
              ** apply list_lookup_singleton_Some in Hj as [_ ->]. lia.
           ++ intros j s Hlt Hj Hs. rewrite lookup_app_l in Hj by done.
              specialize (Hmin j s Hj Hs). lia.
        -- apply Z.ltb_ge in Elt. apply (a_match _ _ _ _ i comb).
           ++ rewrite lookup_app_l; [done|]. by eapply lookup_lt_Some.
           ++ done.
           ++ intros j s Hj Hs. apply lookup_app_Some in Hj as [Hj|[_ Hj]].
              ** by eapply Hmin.
              ** by apply list_lookup_singleton_Some in Hj as [_ ->].
           ++ intros j s Hlt Hj Hs. apply lookup_lt_Some in Hi as Hil.
              rewrite lookup_app_l in Hj by lia. by eapply Hfirst.
    + assert (Hx : ~ in_band t tol (total h x)).
      { intros Hx%in_band_test. congruence. }
      destruct IH as [Hnone | i comb Hi Hin Hmin Hfirst].
      * apply no_match. intros s [Hs| ->%list_elem_of_singleton]%elem_of_app; [by apply Hnone|done].
      * apply (a_match _ _ _ _ i comb).
        -- rewrite lookup_app_l; [done|]. by eapply lookup_lt_Some.
        -- done.
        -- intros j s Hj Hs. apply lookup_app_Some in Hj as [Hj|[_ Hj]].
           ++ by eapply Hmin.
           ++ by apply list_lookup_singleton_Some in Hj as [_ ->].
        -- intros j s Hlt Hj Hs. apply lookup_lt_Some in Hi as Hil.
           rewrite lookup_app_l in Hj by lia. by eapply Hfirst.
Qed.

(** Whatever the store, a subset the matcher returns was one it examined. *)
Lemma generate_combinations_shape nodes t tol h bc bp h' :
  run (generate_combinations nodes t tol) h = (Ok (bc, bp), h') ->
  (bc = None /\ bp = None) \/
  (exists comb p, bc = Some comb /\ bp = Some p /\ comb ∈ enumeration nodes).
Proof.
  unfold run, generate_combinations. rewrite for_in_flat_map. fold (enumeration nodes).
  apply (for_in_inv (fun best =>
    (best.1 = None /\ best.2 = None) \/
    (exists comb p, best.1 = Some comb /\ best.2 = Some p /\ comb ∈ enumeration nodes))
    (enumeration nodes) (examine t tol)); [|by left].
  intros comb [bc0 bp0] h0 s1 h1 Hcomb Hinv. unfold examine. unfold_monad.
  destruct (sum_real_power comb h0) as [[p|e] h2]; [|discriminate].
  destruct ((t - tol <=? p) && (p <=? t + tol)).
  - destruct (match bp0 with
              | Some bp1 => Z.abs (p - t) <? Z.abs (bp1 - t)
              | None => true
              end); intros [= <- <-]; [right; eauto | done].
  - by intros [= <- <-].
Qed.

Lemma generate_combinations_sublist nodes t tol h comb bp h' :
  run (generate_combinations nodes t tol) h = (Ok (Some comb, bp), h') ->
  sublist comb nodes /\ comb <> [].
Proof.
  intros [[? _]|(c & p & [= <-] & _ & Hc)]%generate_combinations_shape; [done|].
  by apply elem_of_enumeration.
Qed.

(** ** The subset matcher: claims C3 and C4 *)

(** C3. When the store holds the candidates and the matcher returns a subset
    [comb] with total [p]: [p] is the summed power of [comb], a non-empty
    subset of the candidates inside the band; no non-empty subset of the
    candidates inside the band deviates less from the target; [comb] stands
    at a position of the enumeration (sizes 1 to n, each size in the order
    of [combinations]) before which every subset inside the band deviates
    strictly more, so it is the first that reaches the least deviation; and
    a subset inside the band with fewer loads deviates strictly more, so
    smaller subsets win ties.  The tolerance need not be non-negative. *)
Theorem matcher_closest_first (h : heap) (nodes : list loc) (t tol : Z)
    (comb : list loc) (p : Z) (h' : heap) :
  allocated h nodes ->
  run (generate_combinations nodes t tol) h = (Ok (Some comb, Some p), h') ->
  p = total h comb /\ sublist comb nodes /\ comb <> [] /\ in_band t tol p /\
  (forall s, sublist s nodes -> s <> [] -> in_band t tol (total h s) ->
     deviation t p <= deviation t (total h s)) /\
  (exists i, enumeration nodes !! i = Some comb /\
     forall j s, (j < i)%nat -> enumeration nodes !! j = Some s ->
       in_band t tol (total h s) -> deviation t p < deviation t (total h s)) /\
  (forall s, sublist s nodes -> s <> [] -> in_band t tol (total h s) ->
     (length s < length comb)%nat -> deviation t p < deviation t (total h s)).
Proof.
  intros Hall Hrun. rewrite (generate_combinations_run h nodes t tol Hall) in Hrun.
  pose proof (scan_outcome h t tol (enumeration nodes)) as Hout.
  injection Hrun as Hscan <-. rewrite Hscan in Hout.
  inversion Hout as [|i c Hi Hin Hmin Hfirst]; subst.
  apply list_elem_of_lookup_2 in Hi as Hmem.
  apply elem_of_enumeration in Hmem as [Hsub Hne].
  do 4 (split; [done|]). split; [|split].
  - intros s Hs Hsne Hband.
    assert (s ∈ enumeration nodes) as [j Hj]%list_elem_of_lookup_1
      by (by apply elem_of_enumeration).
    by eapply Hmin.
  - exists i. split; [done|]. intros j s Hlt Hj Hband. by eapply Hfirst.
  - intros s Hs Hsne Hband Hlen.
    assert (s ∈ enumeration nodes) as [j Hj]%list_elem_of_lookup_1
      by (by apply elem_of_enumeration).
    destruct (decide (j < i)%nat) as [Hlt|Hge]; [by eapply Hfirst|].
    assert (length comb <= length s)%nat; [|lia].
    eapply (enumeration_sizes nodes i j); [lia|done|done].
Qed.

(** C4. When the store holds the candidates: a match the matcher returns has
    its total inside the inclusive band [target - tolerance, target +
    tolerance], and when no non-empty subset of the candidates has its sum
    inside the band the matcher returns (None, None).  Neither part needs
    the list to be non-empty or the tolerance to be non-negative. *)
Theorem matcher_band (h : heap) (nodes : list loc) (t tol : Z) :
  allocated h nodes ->
  (forall comb p h',
     run (generate_combinations nodes t tol) h = (Ok (Some comb, Some p), h') ->
     t - tol <= p <= t + tol) /\
  ((forall s, sublist s nodes -> s <> [] -> ~ in_band t tol (total h s)) ->
     run (generate_combinations nodes t tol) h = (Ok (None, None), h)).
Proof.
  intros Hall. rewrite (generate_combinations_run h nodes t tol Hall).
  pose proof (scan_outcome h t tol (enumeration nodes)) as Hout.
  split.
  - intros comb p h' [= Hscan <-]. rewrite Hscan in Hout.
    by inversion Hout; subst.
  - intros Hnone. inversion Hout as [|i c Hi Hin Hmin Hfirst]; [done|].
    apply list_elem_of_lookup_2, elem_of_enumeration in Hi as [Hsub Hne].
    by destruct (Hnone c).
Qed.

(** ** The pools of the selector *)

Lemma elem_of_range_down (a b p : Z) : p ∈ range_down a b <-> b < p <= a.
Proof.
  unfold range_down. rewrite list_elem_of_fmap. split.
  - intros (i & -> & Hi%list_elem_of_In%in_seq). lia.
  - intros Hp. exists (Z.to_nat (a - p)). split; [lia|].
    apply list_elem_of_In, in_seq. lia.
Qed.

Lemma NoDup_range_down (a b : Z) : NoDup (range_down a b).
Proof.
  unfold range_down. apply NoDup_fmap_2; [|apply NoDup_seq].
  intros i j Hij. lia.
Qed.

Lemma nodes_to_check_run nbp r h :
  (forall p, p ∈ range_down 5 (6 - r) -> is_Some (nbp !! p)) ->
  run (nodes_to_check nbp r) h = (Ok (pool_of nbp r), h).
Proof.
  unfold run, nodes_to_check, pool_of. generalize (range_down 5 (6 - r)) as ps.
  intros ps Hps.
  assert (G : forall acc,
    for_in ps acc (fun priority acc => tier ← getitem nbp priority; mret (acc ++ tier)) h
    = (Ok (acc ++ flat_map (tier nbp) ps), h)); [|by rewrite G].
  induction ps as [|p ps IH]; intros acc.
  - simpl. by rewrite app_nil_r.
  - rewrite for_in_cons. destruct (Hps p) as [nodes Hp]; [by left|].
    unfold_monad. unfold getitem. rewrite Hp. unfold_monad.
    rewrite IH by (intros q Hq; apply Hps; by right).
    simpl. unfold tier at 2. rewrite Hp. simpl. by rewrite app_assoc.
Qed.

(** Whatever the catalog, a pool only holds loads of the tiers it reads. *)
Lemma nodes_to_check_from nbp r h pool h' :
  run (nodes_to_check nbp r) h = (Ok pool, h') ->
  forall l, l ∈ pool ->
    exists p nodes, 6 - r < p <= 5 /\ nbp !! p = Some nodes /\ l ∈ nodes.
Proof.
  unfold run, nodes_to_check.
  apply (for_in_inv (fun acc => forall l, l ∈ acc ->
     exists p nodes, 6 - r < p <= 5 /\ nbp !! p = Some nodes /\ l ∈ nodes)).
  - intros p acc h0 acc' h1 Hp%elem_of_range_down Hacc. unfold_monad. unfold getitem.
    destruct (nbp !! p) as [nodes|] eqn:E; unfold_monad; [|discriminate].
    intros [= <- <-] l [Hl|Hl]%elem_of_app; [by apply Hacc | eauto].
  - by intros l ?%elem_of_nil.
Qed.

(** ** One turn of the radius loop *)

Lemma radius_loop_step r radii nbp t tol sel bp h pool bc bp' :
  run (nodes_to_check nbp r) h = (Ok pool, h) ->
  run (generate_combinations pool t tol) h = (Ok (bc, bp'), h) ->
  radius_loop (r :: radii) nbp t tol sel bp h =
  match bc with
  | Some (x :: c) => (Ok (sel ∪ list_to_set (x :: c), bp', true), h)
  | _ => radius_loop radii nbp t tol sel bp' h
  end.
Proof.
  unfold run. intros Hpool Hgc. simpl. unfold_monad. rewrite Hpool, Hgc.
  by destruct bc as [[|x c]|].
Qed.

Lemma radius_loop_raise r radii nbp t tol sel bp h e :
  run (nodes_to_check nbp r) h = (Raise e, h) ->
  radius_loop (r :: radii) nbp t tol sel bp h = (Raise e, h).
Proof. unfold run. intros Hpool. simpl. unfold_monad. by rewrite Hpool. Qed.

Lemma radius_loop_exhausted radii nbp t tol sel bp h :
  (forall r, r ∈ radii -> no_match_at nbp t tol h r) ->
  radius_loop radii nbp t tol sel bp h =
  (Ok (sel, match radii with [] => bp | _ => None end, false), h).
Proof.
  revert bp. induction radii as [|r radii IH]; intros bp Hno; [reflexivity|].
  destruct (Hno r) as (pool & Hpool & Hgc); [by left|].
  rewrite (radius_loop_step _ _ _ _ _ _ _ _ _ _ _ Hpool Hgc).
  rewrite IH by (intros r' Hr'; apply Hno; by right).
  by destruct radii.
Qed.

Lemma radius_loop_first before r after nbp t tol sel bp h comb p :
  (forall r', r' ∈ before -> no_match_at nbp t tol h r') ->
  match_at nbp t tol h r comb p ->
  radius_loop (before ++ r :: after) nbp t tol sel bp h =
  (Ok (sel ∪ list_to_set comb, Some p, true), h).
Proof.
  revert bp. induction before as [|r0 before IH]; intros bp Hno (pool & Hpool & Hgc).
  - simpl app. rewrite (radius_loop_step _ _ _ _ _ _ _ _ _ _ _ Hpool Hgc).
    apply generate_combinations_sublist in Hgc as [_ Hne].
    by destruct comb.
  - destruct (Hno r0) as (pool0 & Hpool0 & Hgc0); [by left|].
    rewrite <- app_comm_cons.
    rewrite (radius_loop_step _ _ _ _ _ _ _ _ _ _ _ Hpool0 Hgc0).
    apply IH; [|by exists pool]. intros r' Hr'. apply Hno. by right.
Qed.

Lemma find_combination_exhausted nbp t tol h :
  (forall r, 1 <= r <= 5 -> no_match_at nbp t tol h r) ->
  run (find_combination nbp t tol) h = (Ok (∅, None, false), h).
Proof.
  unfold run, find_combination.
  intros Hno. rewrite radius_loop_exhausted; [done|].
  intros r Hr%elem_of_range_down. apply Hno. lia.
Qed.

Lemma find_combination_first nbp t tol h r comb p :
  1 <= r <= 5 ->
  (forall r', r < r' <= 5 -> no_match_at nbp t tol h r') ->
  match_at nbp t tol h r comb p ->
  run (find_combination nbp t tol) h = (Ok (list_to_set comb, Some p, true), h).
Proof.
  unfold run, find_combination.
  intros Hr Hno Hm. change (range_down 5 0) with [5; 4; 3; 2; 1].
  assert (exists before after, [5; 4; 3; 2; 1] = before ++ r :: after /\
            forall r', r' ∈ before -> r < r' <= 5) as (before & after & -> & Hbefore).
  { assert (r = 5 \/ r = 4 \/ r = 3 \/ r = 2 \/ r = 1) as [->|[->|[->|[->| ->]]]] by lia.
    - exists [], [4; 3; 2; 1]. split; [done|]. intros r' Hr'. list_cases Hr'.
    - exists [5], [3; 2; 1]. split; [done|]. intros r' Hr'. list_cases Hr'.
    - exists [5; 4], [2; 1]. split; [done|]. intros r' Hr'. list_cases Hr'.
    - exists [5; 4; 3], [1]. split; [done|]. intros r' Hr'. list_cases Hr'.
    - exists [5; 4; 3; 2], []. split; [done|]. intros r' Hr'. list_cases Hr'. }
  rewrite (radius_loop_first before r after nbp t tol ∅ None h comb p); [|by auto|done].
  by rewrite (left_id_L ∅ (∪)).
Qed.

(** ** Well-formed catalogs *)

Section catalog.
Context (h : heap) (nbp : gmap Z (list loc)) (Hok : catalog_ok h nbp).

Lemma pool_present r p : 1 <= r <= 5 -> p ∈ range_down 5 (6 - r) -> is_Some (nbp !! p).
Proof using Hok.
  intros Hr Hp%elem_of_range_down.
  destruct (Hok p) as (nodes & -> & _); [lia|]. eauto.
Qed.

Lemma elem_of_pool_of r l :
  1 <= r <= 5 ->
  l ∈ pool_of nbp r ->
  exists n, h !! l = Some n /\ 6 - r < priority n <= 5 /\ l ∈ tier nbp (priority n).
Proof using Hok.
  intros Hr. unfold pool_of.
  rewrite list_elem_of_In, in_flat_map.
  intros (p & Hp%list_elem_of_In%elem_of_range_down & Hl%list_elem_of_In).
  destruct (Hok p) as (nodes & Hnodes & _ & Hall); [lia|].
  unfold tier in Hl. rewrite Hnodes in Hl. simpl in Hl.
  rewrite Forall_forall in Hall. destruct (Hall l Hl) as (n & Hn & <-).
  exists n. split; [done|]. split; [lia|]. unfold tier. by rewrite Hnodes.
Qed.

Lemma pool_allocated r : 1 <= r <= 5 -> allocated h (pool_of nbp r).
Proof using Hok.
  intros Hr. apply Forall_forall. intros l Hl.
  destruct (elem_of_pool_of r l Hr Hl) as (n & -> & _). eauto.
Qed.

Lemma pool_NoDup r : 1 <= r <= 5 -> NoDup (pool_of nbp r).
Proof using Hok.
  intros Hr. unfold pool_of.
  assert (Hps : forall p, p ∈ range_down 5 (6 - r) -> 1 <= p <= 5).
  { intros p Hp%elem_of_range_down. lia. }
  pose proof (NoDup_range_down 5 (6 - r)) as Hnd.
  induction Hnd as [|p ps Hp Hnd IH]; [constructor|].
  simpl. apply NoDup_app. split; [|split].
  - destruct (Hok p) as (nodes & Hnodes & Hnodup & _); [apply Hps; by left|].
    unfold tier. by rewrite Hnodes.
  - intros l Hl [q [Hq%list_elem_of_In Hlq%list_elem_of_In]]%list_elem_of_In%in_flat_map.
    destruct (Hok p) as (nodes & Hnodes & _ & Hall); [apply Hps; by left|].
    destruct (Hok q) as (nodes' & Hnodes' & _ & Hall'); [apply Hps; by right|].
    unfold tier in Hl, Hlq. rewrite Hnodes in Hl. rewrite Hnodes' in Hlq. simpl in *.
    rewrite Forall_forall in Hall, Hall'.
    destruct (Hall l Hl) as (n & Hn & Hpn). destruct (Hall' l Hlq) as (n' & Hn' & Hqn).
    assert (p = q) as -> by congruence. done.
  - apply IH. intros q Hq. apply Hps. by right.
Qed.

(** On a catalog every radius is searched, and yields a match or none. *)
Lemma radius_outcome t tol r :
  1 <= r <= 5 ->
  no_match_at nbp t tol h r \/
  exists comb, match_at nbp t tol h r comb (total h comb) /\
    comb ∈ enumeration (pool_of nbp r) /\ in_band t tol (total h comb).
Proof using Hok.
  intros Hr.
  pose proof (nodes_to_check_run nbp r h (fun p => pool_present r p Hr)) as Hpool.
  pose proof (generate_combinations_run h _ t tol (pool_allocated r Hr)) as Hgc.
  destruct (scan_outcome h t tol (enumeration (pool_of nbp r)))
    as [Hnone | i comb Hi Hin Hmin Hfirst].
  - left. by exists (pool_of nbp r).
  - right. exists comb. split; [by exists (pool_of nbp r)|].
    split; [by eapply list_elem_of_lookup_2 | done].
Qed.

(** The selector returns on a catalog, and what it returns. *)
Lemma find_combination_outcome t tol :
  (run (find_combination nbp t tol) h = (Ok (∅, None, false), h) /\
   forall r, 1 <= r <= 5 -> no_match_at nbp t tol h r) \/
  (exists r comb, 1 <= r <= 5 /\
     (forall r', r < r' <= 5 -> no_match_at nbp t tol h r') /\
     comb ∈ enumeration (pool_of nbp r) /\ in_band t tol (total h comb) /\
     run (find_combination nbp t tol) h =
       (Ok (list_to_set comb, Some (total h comb), true), h)).
Proof using Hok.
  assert (Hfrom : forall k : nat, (k <= 5)%nat ->
    (forall r', 5 - Z.of_nat k < r' <= 5 -> no_match_at nbp t tol h r') \/
    (exists r comb, 1 <= r <= 5 /\
       (forall r', r < r' <= 5 -> no_match_at nbp t tol h r') /\
       match_at nbp t tol h r comb (total h comb) /\
       comb ∈ enumeration (pool_of nbp r) /\ in_band t tol (total h comb))).
  { induction k as [|k IH]; intros Hk.
    - left. intros r' Hr'. lia.
    - destruct IH as [Hno|Hyes]; [lia| |by right].
      destruct (radius_outcome t tol (5 - Z.of_nat k)) as [Hno'|(comb & Hm & Hc & Hb)]; [lia| |].
      + left. intros r' Hr'.
        destruct (decide (r' = 5 - Z.of_nat k)) as [->|Hne]; [done|].
        apply Hno. lia.
      + right. exists (5 - Z.of_nat k), comb.
        split; [lia|]. split; [|done]. intros r' Hr'. apply Hno. lia. }
  destruct (Hfrom 5%nat) as [Hno|(r & comb & Hr & Hno & Hm & Hc & Hb)]; [lia| |].
  - left. split; [apply find_combination_exhausted|]; intros r Hr; apply Hno; lia.
  - right. exists r, comb. do 4 (split; [done|]).
    by apply find_combination_first with r.
Qed.
End catalog.

Lemma flat_map_all_nil {A B} (f : A -> list B) (l : list A) :
  (forall x, x ∈ l -> f x = []) -> flat_map f l = [].
Proof.
  induction l as [|x l IH]; intros Hf; [done|].
  simpl. rewrite Hf by left. apply IH. intros y Hy. apply Hf. by right.
Qed.

(** The summed power of the set made of a list without repetition. *)
Lemma set_total_list_to_set (h : heap) (comb : list loc) :
  NoDup comb -> set_total h (list_to_set comb) = total h comb.
Proof.
  intros Hnd. unfold set_total, set_fold, total. simpl.
  apply (foldr_permutation_proper (=) (fun l acc => power h l + acc) 0).
  - intros a1 a2 b. lia.
  - by apply elements_list_to_set.
Qed.

(** Whatever the catalog, the loads the loop adds come from its tiers. *)
Lemma radius_loop_from radii nbp t tol sel bp h sel' p b h' :
  run (radius_loop radii nbp t tol sel bp) h = (Ok (sel', p, b), h') ->
  forall l, l ∈ sel' ->
    l ∈ sel \/ exists k nodes, nbp !! k = Some nodes /\ l ∈ nodes.
Proof.
  unfold run. revert bp h. induction radii as [|r radii IH]; intros bp h.
  - simpl. unfold_monad. intros [= <- <- <- <-] l Hl. by left.
  - simpl. unfold_monad.
    destruct (nodes_to_check nbp r h) as [[pool|e] h1] eqn:Epool; [|discriminate].
    destruct (generate_combinations pool t tol h1) as [[[bc bp1]|e] h2] eqn:Egc; [|discriminate].
    destruct bc as [[|x c]|]; [by apply IH | | by apply IH].
    intros [= <- <- <- <-] l [Hl|Hl]%elem_of_union; [by left|].
    right. assert (Hl' : l ∈ x :: c) by (by apply (elem_of_list_to_set (C:=gset loc))).
    clear Hl. rename Hl' into Hl.
    apply generate_combinations_sublist in Egc as [Hsub _].
    eapply sublist_submseteq, elem_of_submseteq in Hsub; [|exact Hl].
    destruct (nodes_to_check_from nbp r h pool h1 Epool l Hsub) as (k & nodes & _ & Hk & Hin).
    eauto.
Qed.

(** ** The tiered selector: claim C8 *)

(** C8. On a tier catalog no pool built at a radius from 5 down to 1 holds a
    load of priority 1, and the set the selector returns holds none. *)
Theorem priority_one_never_shed (h : heap) (nbp : gmap Z (list loc)) (t tol : Z) :
  catalog_ok h nbp ->
  (forall r pool h', 1 <= r <= 5 ->
     run (nodes_to_check nbp r) h = (Ok pool, h') ->
     forall l n, l ∈ pool -> h !! l = Some n -> priority n <> 1) /\
  (forall sel p b h',
     run (find_combination nbp t tol) h = (Ok (sel, p, b), h') ->
     forall l n, l ∈ sel -> h !! l = Some n -> priority n <> 1).
Proof.
  intros Hok. split.
  - intros r pool h' Hr Hrun l n Hl Hn.
    destruct (nodes_to_check_from nbp r h pool h' Hrun l Hl) as (k & nodes & Hk & Hnodes & Hin).
    destruct (Hok k) as (nodes' & Hnodes' & _ & Hall); [lia|].
    assert (nodes' = nodes) as -> by congruence.
    rewrite Forall_forall in Hall. destruct (Hall l Hin) as (n' & Hn' & Hprio).
    assert (n' = n) as -> by congruence. lia.
  - intros sel p b h' Hrun l n Hl Hn.
    destruct (find_combination_outcome h nbp Hok t tol)
      as [[Hnone _]|(r & comb & Hr & _ & Hc & _ & Hfound)].
    + rewrite Hnone in Hrun. injection Hrun as <- _ _ _. by apply not_elem_of_empty in Hl.
    + rewrite Hfound in Hrun. injection Hrun as <- _ _ _.
      apply elem_of_list_to_set in Hl.
      apply elem_of_enumeration in Hc as [Hsub _].
      eapply sublist_submseteq, elem_of_submseteq in Hsub; [|exact Hl].
      destruct (elem_of_pool_of h nbp Hok r l Hr Hsub) as (n' & Hn' & Hprio & _).
      assert (n' = n) as -> by congruence. lia.
Qed.

(** ** Frame: claim C10 *)

(** C10. For every store, candidate list, catalog, target and tolerance, and
    whether they return or raise: the matcher and the selector leave the
    store as it was, so that no load has its power rating, priority or
    selected flag changed and no load is created; the subset the matcher
    returns is drawn from its candidates, and every load of the set the
    selector returns is listed in a tier of the catalog. *)
Theorem search_leaves_loads_untouched (h : heap) (nodes : list loc)
    (nbp : gmap Z (list loc)) (t tol : Z) :
  snd (run (generate_combinations nodes t tol) h) = h /\
  snd (run (find_combination nbp t tol) h) = h /\
  (forall comb bp h',
     run (generate_combinations nodes t tol) h = (Ok (Some comb, bp), h') ->
     sublist comb nodes) /\
  (forall sel p b h',
     run (find_combination nbp t tol) h = (Ok (sel, p, b), h') ->
     forall l, l ∈ sel -> exists k tier_nodes, nbp !! k = Some tier_nodes /\ l ∈ tier_nodes).
Proof.
  split; [apply read_only_generate_combinations|].
  split; [apply read_only_find_combination|]. split.
  - intros comb bp h' Hrun. by apply generate_combinations_sublist in Hrun as [? _].
  - intros sel p b h' Hrun l Hl.
    destruct (radius_loop_from _ _ _ _ _ _ _ _ _ _ _ Hrun l Hl) as [Hempty|?]; [|done].
    by apply not_elem_of_empty in Hempty.
Qed.

(** ** Catalogs without loads, and catalogs without tiers: claim C5 *)


(** ** Requests with a negative target or tolerance: claim C6 *)


(** ** The program's catalog *)

Lemma source_catalog_ok : catalog_ok heap0 nodes_by_priority.
Proof.
  intros p Hp.
  assert (p = 1 \/ p = 2 \/ p = 3 \/ p = 4 \/ p = 5) as [->|[->|[->|[->| ->]]]] by lia.
  all: eexists; split; [vm_compute; reflexivity|]; split;
    [apply (bool_decide_unpack _); vm_compute; exact I
    |repeat (apply Forall_cons; split;
              [eexists; split; [vm_compute; reflexivity | reflexivity]|]);
     by apply Forall_nil].
Qed.

Lemma source_tier_five_allocated : allocated heap0 [12; 13; 14]%positive.
Proof. apply (bool_decide_unpack _). vm_compute. exact I. Qed.

(** ** The pools on the program's catalog: claims C1 and C2 *)

(** On a tier catalog the pool of radius [r] is made of the tiers above
    [6 - r]: the loads of priority 7 - r to 5. *)
Lemma pool_tiers (h : heap) (nbp : gmap Z (list loc)) (r : Z) (l : loc) :
  catalog_ok h nbp -> 1 <= r <= 5 ->
  l ∈ pool_of nbp r <->
  exists n, h !! l = Some n /\ 7 - r <= priority n <= 5 /\ l ∈ tier nbp (priority n).
Proof.
  intros Hok Hr. split.
  - intros Hl. destruct (elem_of_pool_of h nbp Hok r l Hr Hl) as (n & Hn & Hp & Ht).
    exists n. split; [done|]. split; [lia|done].
  - intros (n & Hn & Hp & Ht). unfold pool_of.
    apply list_elem_of_In, in_flat_map. exists (priority n).
    split; apply list_elem_of_In; [|done]. apply elem_of_range_down. lia.
Qed.

(** C1 does not hold of the code.  On the program's catalog the pool that
    radius 5 passes to the matcher is not the priority-5 tier alone: it is
    the tiers 5, 4, 3 and 2, eleven loads; and the pool of radius 1 is not
    the full catalog: it is empty. *)
Theorem pool_of_first_and_last_radius :
  run (nodes_to_check nodes_by_priority 5) heap0 =
    (Ok [12; 13; 14; 9; 10; 11; 7; 8; 4; 5; 6]%positive, heap0) /\
  priorities heap0 [12; 13; 14; 9; 10; 11; 7; 8; 4; 5; 6]%positive =
    [Some 5; Some 5; Some 5; Some 4; Some 4; Some 4; Some 3; Some 3;
     Some 2; Some 2; Some 2] /\
  run (nodes_to_check nodes_by_priority 1) heap0 = (Ok [], heap0).
Proof. repeat split; vm_compute; reflexivity. Qed.

(** C2 does not hold of the code.  On the program's catalog with target 80
    and tolerance 10 the priority-5 load of 90 alone is inside the band
    [70, 90], yet the selector returns the priority-4 load of 80. *)
Theorem priority_four_shed_before_priority_five :
  priorities heap0 [12]%positive = [Some 5] /\
  total heap0 [12]%positive = 90 /\
  in_band 80 10 (total heap0 [12]%positive) /\
  run (find_combination nodes_by_priority 80 10) heap0 =
    (Ok ({[11%positive]}, Some 80, true), heap0) /\
  priorities heap0 [11]%positive = [Some 4].
Proof.
  assert (Htotal : total heap0 [12]%positive = 90) by (vm_compute; reflexivity).
  split; [vm_compute; reflexivity|]. split; [done|]. split.
  - rewrite Htotal. unfold in_band. lia.
  - split; vm_compute; reflexivity.
Qed.

(** ** Counterexamples to the claims C5 and C6 as stated *)



(** ** The theorems at work on the program's catalog *)

(** Membership in the enumeration of a list that is written out: one goal
    per subset. *)
Ltac each_subset Hin :=
  vm_compute in Hin;
  repeat (apply elem_of_cons in Hin as [->|Hin]);
  [..|by apply elem_of_nil in Hin].

(** C3 on the priority-5 tier (90, 100, 110) with target 200 and tolerance
    20: the matcher returns 90 + 110. *)
Lemma matcher_closest_first_witness :
  allocated heap0 [12; 13; 14]%positive /\
  run (generate_combinations [12; 13; 14]%positive 200 20) heap0 =
    (Ok (Some [12; 14]%positive, Some 200), heap0) /\
  (200 = total heap0 [12; 14]%positive /\
   sublist [12; 14]%positive [12; 13; 14]%positive /\
   [12; 14]%positive <> [] /\ in_band 200 20 200 /\
   (forall s, sublist s [12; 13; 14]%positive -> s <> [] ->
      in_band 200 20 (total heap0 s) ->
      deviation 200 200 <= deviation 200 (total heap0 s)) /\
   (exists i, enumeration [12; 13; 14]%positive !! i = Some [12; 14]%positive /\
      forall j s, (j < i)%nat -> enumeration [12; 13; 14]%positive !! j = Some s ->
        in_band 200 20 (total heap0 s) ->
        deviation 200 200 < deviation 200 (total heap0 s)) /\
   (forall s, sublist s [12; 13; 14]%positive -> s <> [] ->
      in_band 200 20 (total heap0 s) ->
      (length s < length [12; 14]%positive)%nat ->
      deviation 200 200 < deviation 200 (total heap0 s))).
Proof.
  assert (Hrun : run (generate_combinations [12; 13; 14]%positive 200 20) heap0 =
                 (Ok (Some [12; 14]%positive, Some 200), heap0))
    by (vm_compute; reflexivity).
  split; [exact source_tier_five_allocated|]. split; [exact Hrun|].
  exact (matcher_closest_first heap0 [12; 13; 14]%positive 200 20
           [12; 14]%positive 200 heap0 source_tier_five_allocated Hrun).
Defined.

(** C4 on the priority-5 tier: with target 200 and tolerance 20 the total
    returned, 200, is inside [180, 220]; with target 500 and tolerance 5 no
    subset is inside [495, 505] and the matcher returns (None, None). *)
Lemma matcher_band_witness :
  allocated heap0 [12; 13; 14]%positive /\
  run (generate_combinations [12; 13; 14]%positive 200 20) heap0 =
    (Ok (Some [12; 14]%positive, Some 200), heap0) /\
  200 - 20 <= 200 <= 200 + 20 /\
  (forall s, sublist s [12; 13; 14]%positive -> s <> [] ->
     ~ in_band 500 5 (total heap0 s)) /\
  run (generate_combinations [12; 13; 14]%positive 500 5) heap0 = (Ok (None, None), heap0).
Proof.
  assert (Hrun : run (generate_combinations [12; 13; 14]%positive 200 20) heap0 =
                 (Ok (Some [12; 14]%positive, Some 200), heap0))
    by (vm_compute; reflexivity).
  assert (Hnone : forall s, sublist s [12; 13; 14]%positive -> s <> [] ->
                    ~ in_band 500 5 (total heap0 s)).
  { intros s Hs Hne [Hb _].
    assert (Hin : s ∈ enumeration [12; 13; 14]%positive)
      by (apply elem_of_enumeration; split; assumption).
    each_subset Hin; vm_compute in Hb; apply Hb; reflexivity. }
  split; [exact source_tier_five_allocated|]. split; [exact Hrun|].
  split; [|split; [exact Hnone|]].
  - exact (proj1 (matcher_band heap0 [12; 13; 14]%positive 200 20 source_tier_five_allocated)
             [12; 14]%positive 200 heap0 Hrun).
  - exact (proj2 (matcher_band heap0 [12; 13; 14]%positive 500 5 source_tier_five_allocated)
             Hnone).
Defined.

(** C8 on the program's catalog: the pool of radius 5 and the set returned
    for target 200 and tolerance 20 hold no load of priority 1. *)
Lemma priority_one_never_shed_witness :
  catalog_ok heap0 nodes_by_priority /\
  1 <= 5 <= 5 /\
  run (nodes_to_check nodes_by_priority 5) heap0 =
    (Ok [12; 13; 14; 9; 10; 11; 7; 8; 4; 5; 6]%positive, heap0) /\
  run (find_combination nodes_by_priority 200 20) heap0 =
    (Ok (list_to_set [12; 14]%positive, Some 200, true), heap0) /\
  (forall l n, l ∈ [12; 13; 14; 9; 10; 11; 7; 8; 4; 5; 6]%positive ->
     heap0 !! l = Some n -> priority n <> 1) /\
  (forall l n, l ∈ (list_to_set [12; 14]%positive : gset loc) ->
     heap0 !! l = Some n -> priority n <> 1).
Proof.
  assert (Hrange : 1 <= 5 <= 5) by lia.
  assert (Hpool : run (nodes_to_check nodes_by_priority 5) heap0 =
                  (Ok [12; 13; 14; 9; 10; 11; 7; 8; 4; 5; 6]%positive, heap0))
    by (vm_compute; reflexivity).
  assert (Hrun : run (find_combination nodes_by_priority 200 20) heap0 =
                 (Ok (list_to_set [12; 14]%positive, Some 200, true), heap0))
    by (vm_compute; reflexivity).
  split; [exact source_catalog_ok|]. split; [exact Hrange|].
  split; [exact Hpool|]. split; [exact Hrun|]. split.
  - exact (proj1 (priority_one_never_shed heap0 nodes_by_priority 200 20 source_catalog_ok)
             5 _ heap0 Hrange Hpool).
  - exact (proj2 (priority_one_never_shed heap0 nodes_by_priority 200 20 source_catalog_ok)
             _ _ _ heap0 Hrun).
Defined.

(** C10 on the program's catalog with target 200 and tolerance 20. *)
Lemma search_leaves_loads_untouched_witness :
  snd (run (generate_combinations [12; 13; 14]%positive 200 20) heap0) = heap0 /\
  snd (run (find_combination nodes_by_priority 200 20) heap0) = heap0 /\
  sublist [12; 14]%positive [12; 13; 14]%positive /\
  (forall l, l ∈ (list_to_set [12; 14]%positive : gset loc) ->
     exists k tier_nodes, nodes_by_priority !! k = Some tier_nodes /\ l ∈ tier_nodes).
Proof.
  assert (Hgc : run (generate_combinations [12; 13; 14]%positive 200 20) heap0 =
                (Ok (Some [12; 14]%positive, Some 200), heap0))
    by (vm_compute; reflexivity).
  assert (Hrun : run (find_combination nodes_by_priority 200 20) heap0 =
                 (Ok (list_to_set [12; 14]%positive, Some 200, true), heap0))
    by (vm_compute; reflexivity).
  destruct (search_leaves_loads_untouched heap0 [12; 13; 14]%positive
              nodes_by_priority 200 20) as (H1 & H2 & H3 & H4).
  split; [exact H1|]. split; [exact H2|]. split.
  - exact (H3 _ _ heap0 Hgc).
  - exact (H4 _ _ _ heap0 Hrun).
Defined.



(** * Further properties of the selector and the matcher *)

(** ** Which tiers the selector reads *)

Lemma for_in_ext {A S} (xs : list A) (s : S) (body1 body2 : A -> S -> M S) (h : heap) :
  (forall x s h, x ∈ xs -> body1 x s h = body2 x s h) ->
  for_in xs s body1 h = for_in xs s body2 h.
Proof.
  revert s h. induction xs as [|x xs IH]; intros s h Hb; [reflexivity|].
  rewrite !for_in_cons, Hb by left.
  destruct (body2 x s h) as [[s'|e] h']; [|reflexivity].
  apply IH. intros y s0 h0 Hy. apply Hb. by right.
Qed.

Lemma nodes_to_check_agree nbp nbp' r h :
  (forall p, 6 - r < p <= 5 -> nbp !! p = nbp' !! p) ->
  nodes_to_check nbp r h = nodes_to_check nbp' r h.
Proof.
  intros Hagree. unfold nodes_to_check. apply for_in_ext.
  intros p acc h0 Hp%elem_of_range_down. unfold_monad. unfold getitem.
  by rewrite (Hagree p Hp).
Qed.

Lemma radius_loop_agree radii nbp nbp' t tol sel bp h :
  (forall r h, r ∈ radii -> nodes_to_check nbp r h = nodes_to_check nbp' r h) ->
  radius_loop radii nbp t tol sel bp h = radius_loop radii nbp' t tol sel bp h.
Proof.
  revert bp h. induction radii as [|r radii IH]; intros bp h Hagree; [reflexivity|].
  simpl. unfold_monad. rewrite (Hagree r h) by left.
  destruct (nodes_to_check nbp' r h) as [[pool|e] h1]; [|reflexivity].
  destruct (generate_combinations pool t tol h1) as [[[bc bp1]|e] h2]; [|reflexivity].
  assert (Hrest : radius_loop radii nbp t tol sel bp1 h2 =
                  radius_loop radii nbp' t tol sel bp1 h2).
  { apply IH. intros r' h' Hr'. apply Hagree. by right. }
  by destruct bc as [[|x c]|].
Qed.

(** X1. The selector reads the tiers 2 to 5 and nothing else of the
    catalog: on two catalogs that list the same loads under the keys 2, 3,
    4 and 5 it behaves the same, whatever they list, or do not list, under
    key 1 or any other key. *)
Theorem selector_reads_tiers_two_to_five (nbp nbp' : gmap Z (list loc)) (t tol : Z)
    (h : heap) :
  (forall p, 2 <= p <= 5 -> nbp !! p = nbp' !! p) ->
  run (find_combination nbp t tol) h = run (find_combination nbp' t tol) h.
Proof.
  intros Hagree. unfold run, find_combination. apply radius_loop_agree.
  intros r h0 Hr%elem_of_range_down. apply nodes_to_check_agree.
  intros p Hp. apply Hagree. lia.
Qed.

(** X2. The selector reads the tiers in the order 5, 4, 3, 2 before any
    search: when tier [k] is the first of them that the catalog does not
    list, it raises KeyError [k] and leaves the store as it was. *)
Theorem selector_missing_tier (nbp : gmap Z (list loc)) (t tol : Z) (h : heap) (k : Z) :
  2 <= k <= 5 ->
  nbp !! k = None ->
  (forall p, k < p <= 5 -> is_Some (nbp !! p)) ->
  run (find_combination nbp t tol) h = (Raise (KeyError k), h).
Proof.
  intros Hk Hmissing Habove. unfold run, find_combination.
  change (range_down 5 0) with [5; 4; 3; 2; 1].
  apply radius_loop_raise. unfold run, nodes_to_check.
  change (range_down 5 (6 - 5)) with [5; 4; 3; 2].
  assert (Hstep : forall p ps acc, is_Some (nbp !! p) ->
    for_in (p :: ps) acc
      (fun priority acc => tier ← getitem nbp priority; mret (acc ++ tier)) h =
    for_in ps (acc ++ tier nbp p)
      (fun priority acc => tier ← getitem nbp priority; mret (acc ++ tier)) h).
  { intros p ps acc [nodes Hp]. rewrite for_in_cons. unfold_monad. unfold getitem, tier.
    rewrite Hp. reflexivity. }
  assert (Hstop : forall ps acc,
    for_in (k :: ps) acc
      (fun priority acc => tier ← getitem nbp priority; mret (acc ++ tier)) h =
    (Raise (KeyError k), h)).
  { intros ps acc. rewrite for_in_cons. unfold_monad. unfold getitem.
    by rewrite Hmissing. }
  assert (k = 5 \/ k = 4 \/ k = 3 \/ k = 2) as [->|[->|[->| ->]]] by lia.
  - apply Hstop.
  - rewrite Hstep by (apply Habove; lia). apply Hstop.
  - rewrite !Hstep by (apply Habove; lia). apply Hstop.
  - rewrite !Hstep by (apply Habove; lia). apply Hstop.
Qed.

(** ** The first radius decides *)

Lemma pool_of_five nbp : pool_of nbp 5 = sheddable nbp.
Proof. unfold pool_of, sheddable. simpl. by rewrite app_nil_r. Qed.

(** The pools only shrink after the first radius. *)
Lemma pool_sublist nbp r : 1 <= r <= 5 -> sublist (pool_of nbp r) (sheddable nbp).
Proof.
  intros Hr. rewrite <- pool_of_five.
  assert (r = 5 \/ r = 4 \/ r = 3 \/ r = 2 \/ r = 1) as [->|[->|[->|[->| ->]]]] by lia;
    unfold pool_of; simpl; rewrite ?app_nil_r.
  - done.
  - do 2 (apply sublist_app; [done|]). by apply sublist_inserts_r.
  - apply sublist_app; [done|]. by apply sublist_inserts_r.
  - by apply sublist_inserts_r.
  - apply sublist_nil_l.
Qed.

Lemma ready_present h nbp r p :
  tiers_ready h nbp -> 1 <= r <= 5 -> p ∈ range_down 5 (6 - r) -> is_Some (nbp !! p).
Proof.
  intros Hready Hr Hp%elem_of_range_down.
  destruct (Hready p) as (nodes & -> & _); [lia|]. eauto.
Qed.

Lemma ready_allocated h nbp r :
  tiers_ready h nbp -> 1 <= r <= 5 -> allocated h (pool_of nbp r).
Proof.
  intros Hready Hr. apply Forall_forall. intros l.
  unfold pool_of. rewrite list_elem_of_In, in_flat_map.
  intros (p & Hp%list_elem_of_In%elem_of_range_down & Hl%list_elem_of_In).
  destruct (Hready p) as (nodes & Hnodes & Hall); [lia|].
  unfold tier in Hl. rewrite Hnodes in Hl. simpl in Hl.
  unfold allocated in Hall. rewrite Forall_forall in Hall. by apply Hall.
Qed.

(** What the selector returns when the tiers it reads are listed: either no
    subset of the tiers 5 to 2 is inside the band, or the one the matcher
    picks among them. *)
Lemma find_combination_ready h nbp t tol :
  tiers_ready h nbp ->
  (scan h t tol (enumeration (sheddable nbp)) = (None, None) /\
   (forall s, sublist s (sheddable nbp) -> s <> [] -> ~ in_band t tol (total h s)) /\
   run (find_combination nbp t tol) h = (Ok (∅, None, false), h)) \/
  (exists comb,
     scan h t tol (enumeration (sheddable nbp)) = (Some comb, Some (total h comb)) /\
     sublist comb (sheddable nbp) /\ comb <> [] /\ in_band t tol (total h comb) /\
     (forall s, sublist s (sheddable nbp) -> s <> [] -> in_band t tol (total h s) ->
        deviation t (total h comb) <= deviation t (total h s)) /\
     run (find_combination nbp t tol) h =
       (Ok (list_to_set comb, Some (total h comb), true), h)).
Proof.
  intros Hready.
  assert (Hrun : forall r, 1 <= r <= 5 ->
    run (nodes_to_check nbp r) h = (Ok (pool_of nbp r), h) /\
    run (generate_combinations (pool_of nbp r) t tol) h =
      (Ok (scan h t tol (enumeration (pool_of nbp r))), h)).
  { intros r Hr. split.
    - apply nodes_to_check_run. intros p Hp. by eapply ready_present.
    - apply generate_combinations_run. by eapply ready_allocated. }
  pose proof (scan_outcome h t tol (enumeration (sheddable nbp))) as Hout.
  destruct (scan h t tol (enumeration (sheddable nbp))) as [bc bp] eqn:Escan.
  inversion Hout as [Hnone | i comb Hi Hin Hmin Hfirst]; subst.
  - left. split; [done|].
    assert (Hno : forall s, sublist s (sheddable nbp) -> s <> [] ->
                    ~ in_band t tol (total h s)).
    { intros s Hs Hne. apply Hnone. by apply elem_of_enumeration. }
    split; [done|]. apply find_combination_exhausted. intros r Hr.
    destruct (Hrun r Hr) as [Hpool Hgc]. exists (pool_of nbp r). split; [done|].
    rewrite Hgc. f_equal. f_equal.
    pose proof (scan_outcome h t tol (enumeration (pool_of nbp r))) as Hout'.
    inversion Hout' as [|j c Hj Hcin _ _]; [done|].
    apply list_elem_of_lookup_2, elem_of_enumeration in Hj as [Hsub Hne].
    destruct (Hno c); [|done..]. etrans; [exact Hsub|]. by apply pool_sublist.
  - right. exists comb.
    apply list_elem_of_lookup_2 in Hi as Hmem.
    apply elem_of_enumeration in Hmem as [Hsub Hne].
    do 4 (split; [done|]). split.
    + intros s Hs Hsne Hband.
      assert (s ∈ enumeration (sheddable nbp)) as [j Hj]%list_elem_of_lookup_1
        by (by apply elem_of_enumeration).
      by eapply Hmin.
    + apply find_combination_first with 5; [lia|intros r' Hr'; lia|].
      destruct (Hrun 5) as [Hpool Hgc]; [lia|].
      exists (pool_of nbp 5). split; [done|].
      by rewrite Hgc, pool_of_five, Escan.
Qed.

(** X3. When the tiers 2 to 5 are listed, the selector is the matcher
    applied once to the loads of the tiers 5, 4, 3 and 2 together: a match
    of the matcher on that list is what the selector returns, and without
    one the selector returns unsatisfied, the radii 4 to 1 never finding
    what radius 5 did not. *)
Theorem selector_is_matcher_on_sheddable (h : heap) (nbp : gmap Z (list loc)) (t tol : Z) :
  tiers_ready h nbp ->
  run (find_combination nbp t tol) h =
  match run (generate_combinations (sheddable nbp) t tol) h with
  | (Ok (Some comb, p), _) => (Ok (list_to_set comb, p, true), h)
  | (Ok (None, _), _) => (Ok (∅, None, false), h)
  | (Raise e, _) => (Raise e, h)
  end.
Proof.
  intros Hready.
  rewrite (generate_combinations_run h (sheddable nbp) t tol).
  - destruct (find_combination_ready h nbp t tol Hready)
      as [(-> & _ & ->)|(comb & -> & _ & _ & _ & _ & ->)]; reflexivity.
  - rewrite <- pool_of_five. apply ready_allocated; [done|lia].
Qed.

(** X4. When the tiers 2 to 5 are listed, the selector returns satisfied =
    true exactly when some non-empty subset of the loads of the tiers 2 to 5
    has its sum inside the band: an unsatisfied result means no combination
    of those loads fits, and loads of tier 1 never count. *)
Theorem selector_satisfied_iff_some_subset_fits (h : heap) (nbp : gmap Z (list loc))
    (t tol : Z) :
  tiers_ready h nbp ->
  (exists sel p, run (find_combination nbp t tol) h = (Ok (sel, p, true), h)) <->
  (exists s, sublist s (sheddable nbp) /\ s <> [] /\ in_band t tol (total h s)).
Proof.
  intros Hready.
  destruct (find_combination_ready h nbp t tol Hready)
    as [(_ & Hno & Hrun)|(comb & _ & Hsub & Hne & Hband & _ & Hrun)].
  - split.
    + intros (sel & p & Hsat). rewrite Hrun in Hsat. discriminate.
    + intros (s & Hs & Hne & Hband). by destruct (Hno s).
  - split; [|eauto]. intros _. by exists comb.
Qed.

(** X5. When the tiers 2 to 5 are listed and the selector returns a set
    with total [p], no non-empty subset of the loads of the tiers 2 to 5
    that is inside the band is closer to the target than [p]. *)
Theorem selector_closest_of_sheddable (h : heap) (nbp : gmap Z (list loc)) (t tol : Z)
    (sel : gset loc) (p : Z) (h' : heap) :
  tiers_ready h nbp ->
  run (find_combination nbp t tol) h = (Ok (sel, Some p, true), h') ->
  in_band t tol p /\
  forall s, sublist s (sheddable nbp) -> s <> [] -> in_band t tol (total h s) ->
    deviation t p <= deviation t (total h s).
Proof.
  intros Hready Hsat.
  destruct (find_combination_ready h nbp t tol Hready)
    as [(_ & _ & Hrun)|(comb & _ & _ & _ & Hband & Hmin & Hrun)].
  - rewrite Hrun in Hsat. discriminate.
  - rewrite Hrun in Hsat. injection Hsat as _ <- _. by split.
Qed.

(** ** Targets out of reach *)

Lemma total_sublist_le h (s1 s2 : list loc) :
  (forall l, l ∈ s2 -> 0 <= power h l) -> sublist s1 s2 -> total h s1 <= total h s2.
Proof.
  intros Hpos Hsub. induction Hsub as [|x s1 s2 Hsub IH|x s1 s2 Hsub IH]; simpl.
  - lia.
  - assert (total h s1 <= total h s2); [|lia].
    apply IH. intros l Hl. apply Hpos. by right.
  - assert (total h s1 <= total h s2).
    { apply IH. intros l Hl. apply Hpos. by right. }
    assert (0 <= power h x) by (apply Hpos; by left). lia.
Qed.

Lemma total_above h (s : list loc) (b : Z) :
  0 <= b -> s <> [] -> (forall l, l ∈ s -> b < power h l) -> b < total h s.
Proof.
  intros Hb. induction s as [|x s IH]; intros Hne Hall; [done|].
  simpl. assert (b < power h x) by (apply Hall; by left).
  destruct s as [|y s]; [simpl; lia|].
  assert (b < total h (y :: s)); [|lia].
  apply IH; [done|]. intros l Hl. apply Hall. by right.
Qed.

Lemma catalog_ready h nbp : catalog_ok h nbp -> tiers_ready h nbp.
Proof.
  intros Hok p Hp. destruct (Hok p) as (nodes & Hnodes & _ & Hall); [lia|].
  exists nodes. split; [done|]. unfold allocated.
  eapply Forall_impl; [exact Hall|]. intros l (n & -> & _). eauto.
Qed.

(** X6. When the tiers 2 to 5 are listed and none of their loads has a
    negative power, a target that exceeds the summed power of all these
    loads by more than the tolerance is never satisfied: the selector
    returns the empty set, no total and satisfied = false. *)
Theorem selector_target_above_capacity (h : heap) (nbp : gmap Z (list loc)) (t tol : Z) :
  tiers_ready h nbp ->
  (forall l, l ∈ sheddable nbp -> 0 <= power h l) ->
  total h (sheddable nbp) < t - tol ->
  run (find_combination nbp t tol) h = (Ok (∅, None, false), h).
Proof.
  intros Hready Hpos Hcap.
  destruct (find_combination_ready h nbp t tol Hready)
    as [(_ & _ & Hrun)|(comb & _ & Hsub & _ & Hband & _)]; [done|].
  pose proof (total_sublist_le h comb (sheddable nbp) Hpos Hsub).
  unfold in_band in Hband. lia.
Qed.

(** X7. When the tiers 2 to 5 are listed and every one of their loads has a
    power above [target + tolerance], itself not negative, no load can be
    shed: the selector returns the empty set, no total and satisfied =
    false.  A target and a tolerance of 0 over loads of positive power is
    the case in point. *)
Theorem selector_target_below_every_load (h : heap) (nbp : gmap Z (list loc)) (t tol : Z) :
  tiers_ready h nbp ->
  0 <= t + tol ->
  (forall l, l ∈ sheddable nbp -> t + tol < power h l) ->
  run (find_combination nbp t tol) h = (Ok (∅, None, false), h).
Proof.
  intros Hready Hnonneg Hbig.
  destruct (find_combination_ready h nbp t tol Hready)
    as [(_ & _ & Hrun)|(comb & _ & Hsub & Hne & Hband & _)]; [done|].
  assert (t + tol < total h comb).
  { apply total_above; [done..|]. intros l Hl. apply Hbig.
    eapply sublist_submseteq, elem_of_submseteq in Hsub; eauto. }
  unfold in_band in Hband. lia.
Qed.

(** ** The size of the search *)

Lemma combinations_nil_r {A} (l : list A) : combinations l 0 = [[]].
Proof. by destruct l. Qed.

Lemma length_combinations_cons {A} (x : A) (t : list A) (r : nat) :
  length (combinations (x :: t) (S r)) =
  (length (combinations t r) + length (combinations t (S r)))%nat.
Proof. simpl. by rewrite length_app, length_map. Qed.

Lemma length_flat_map_snoc {A} (l : list A) (m : nat) :
  length (flat_map (combinations l) (seq 0 (S m))) =
  (length (flat_map (combinations l) (seq 0 m)) + length (combinations l m))%nat.
Proof.
  rewrite seq_S, flat_map_app, length_app. simpl. by rewrite app_nil_r.
Qed.

Lemma length_flat_map_cons {A} (x : A) (t : list A) (m : nat) :
  length (flat_map (combinations (x :: t)) (seq 0 (S m))) =
  (length (flat_map (combinations t) (seq 0 m)) +
   length (flat_map (combinations t) (seq 0 (S m))))%nat.
Proof.
  induction m as [|m IH].
  - simpl. by rewrite combinations_nil_r.
  - rewrite length_flat_map_snoc, IH, length_combinations_cons.
    rewrite (length_flat_map_snoc t (S m)), (length_flat_map_snoc t m). lia.
Qed.

(** All the subsets, the empty one included, number 2 ^ n. *)
Lemma length_all_sizes {A} (l : list A) (m : nat) :
  (length l < m)%nat ->
  length (flat_map (combinations l) (seq 0 m)) = (2 ^ length l)%nat.
Proof.
  revert m. induction l as [|x t IH]; intros m Hm.
  - induction m as [|m IHm]; [simpl in Hm; lia|].
    destruct m as [|m]; [reflexivity|].
    rewrite length_flat_map_snoc, IHm by (simpl; lia). reflexivity.
  - destruct m as [|m]; [simpl in Hm; lia|]. simpl in Hm.
    rewrite length_flat_map_cons, !IH by lia. simpl. lia.
Qed.

(** X8. The matcher examines the combinations of [enumeration nodes] one
    after the other, from no best yet: its run is the run of that one loop.
    These combinations number 2 ^ n - 1 for n candidates, and they are the
    non-empty subsequences of the candidates. *)
Theorem matcher_examines_nonempty_subsequences (nodes : list loc) (t tol : Z) (h : heap) :
  run (generate_combinations nodes t tol) h =
    run (for_in (enumeration nodes) (None, None) (examine t tol)) h /\
  length (enumeration nodes) = (2 ^ length nodes - 1)%nat /\
  (forall s, s ∈ enumeration nodes <-> sublist s nodes /\ s <> []).
Proof.
  split; [|split].
  - unfold run, generate_combinations, enumeration. apply for_in_flat_map.
  - pose proof (length_all_sizes nodes (S (length nodes))) as Hall.
    rewrite <- cons_seq in Hall. simpl flat_map in Hall.
    rewrite combinations_nil_r in Hall. simpl in Hall.
    unfold enumeration. rewrite <- Hall by lia. simpl. lia.
  - intros s. apply elem_of_enumeration.
Qed.

(** * What the selector returns *)

(** ** Results on any store and any catalog *)

(** Loop invariants on a fixed store, for loops whose body only reads. *)
Lemma for_in_inv_ro {A S} (I : S -> Prop) (xs : list A) (body : A -> S -> M S) (h : heap) :
  (forall x s, read_only (body x s)) ->
  (forall x s s' h', x ∈ xs -> I s -> body x s h = (Ok s', h') -> I s') ->
  forall s s' h', I s -> for_in xs s body h = (Ok s', h') -> I s'.
Proof.
  intros Hro. induction xs as [|x xs IH]; intros Hb s s' h' Hs Hrun.
  - unfold_monad. simpl in Hrun. by inversion Hrun; subst.
  - rewrite for_in_cons in Hrun.
    destruct (body x s h) as [[s1|e] h1] eqn:E; [|discriminate].
    assert (h1 = h) as ->.
    { pose proof (Hro x s h) as Hh. by rewrite E in Hh. }
    eapply IH; [| |exact Hrun].
    + intros y s0 s0' h0' Hy. apply Hb. by right.
    + eapply Hb; [by left|exact Hs|exact E].
Qed.

(** When the sum of a combination returns, it is the summed power. *)
Lemma sum_real_power_value h comb v h' :
  sum_real_power comb h = (Ok v, h') -> v = total h comb.
Proof.
  unfold sum_real_power.
  assert (G : forall acc,
    for_in comb acc (fun node acc => p ← get_real_power node; mret (acc + p)) h = (Ok v, h') ->
    v = acc + total h comb).
  { induction comb as [|l comb IH]; intros acc.
    - simpl. unfold_monad. intros [= <- _]. lia.
    - rewrite for_in_cons. unfold_monad. unfold get_real_power.
      simpl total. unfold power at 1.
      destruct (h !! l) as [n|]; [|discriminate].
      intros Hrun%IH. lia. }
  intros Hrun%G. lia.
Qed.

(** Whatever the store, the total the matcher returns is the summed power
    of the combination it returns. *)
Lemma generate_combinations_total nodes t tol h bc bp h' :
  run (generate_combinations nodes t tol) h = (Ok (bc, bp), h') ->
  (bc = None /\ bp = None) \/
  (exists comb, bc = Some comb /\ bp = Some (total h comb) /\ comb ∈ enumeration nodes).
Proof.
  unfold run, generate_combinations. rewrite for_in_flat_map. fold (enumeration nodes).
  apply (for_in_inv_ro (fun best =>
    (best.1 = None /\ best.2 = None) \/
    (exists comb, best.1 = Some comb /\ best.2 = Some (total h comb) /\
       comb ∈ enumeration nodes))
    (enumeration nodes) (examine t tol) h); [|clear|by left].
  { intros comb best. apply read_only_examine. }
  intros comb [bc0 bp0] s1 h1 Hcomb Hinv. unfold examine. unfold_monad.
  destruct (sum_real_power comb h) as [[p|e] h2] eqn:Esum; [|discriminate].
  apply sum_real_power_value in Esum as ->.
  destruct ((t - tol <=? total h comb) && (total h comb <=? t + tol)).
  - destruct (match bp0 with
              | Some bp1 => Z.abs (total h comb - t) <? Z.abs (bp1 - t)
              | None => true
              end); intros [= <- <-]; [right; eauto | done].
  - by intros [= <- <-].
Qed.

(** When the pool of a radius is built, it is the tiers read, in order. *)
Lemma nodes_to_check_value nbp r h pool h' :
  run (nodes_to_check nbp r) h = (Ok pool, h') -> pool = pool_of nbp r.
Proof.
  unfold run, nodes_to_check, pool_of. generalize (range_down 5 (6 - r)) as ps.
  intros ps.
  assert (G : forall acc h0,
    for_in ps acc (fun priority acc => tier ← getitem nbp priority; mret (acc ++ tier)) h0
      = (Ok pool, h') ->
    pool = acc ++ flat_map (tier nbp) ps); [|by intros Hrun%G].
  induction ps as [|p ps IH]; intros acc h0.
  - simpl. unfold_monad. intros [= <- _]. by rewrite app_nil_r.
  - rewrite for_in_cons. unfold_monad. unfold getitem.
    destruct (nbp !! p) as [nodes|] eqn:Ep; unfold_monad; [|discriminate].
    intros ->%IH. simpl flat_map.
    assert (tier nbp p = nodes) as -> by (unfold tier; by rewrite Ep).
    by rewrite app_assoc.
Qed.

(** The radius loop, whatever the store and the catalog: a match comes from
    the pool of one of the radii, with its summed power; without a match
    nothing is selected. *)
Lemma radius_loop_result radii nbp t tol sel bp h sel' p b h' :
  radius_loop radii nbp t tol sel bp h = (Ok (sel', p, b), h') ->
  (b = true /\ exists r comb, r ∈ radii /\ sublist comb (pool_of nbp r) /\ comb <> [] /\
     sel' = sel ∪ list_to_set comb /\ p = Some (total h comb)) \/
  (b = false /\ sel' = sel /\ p = match radii with [] => bp | _ => None end).
Proof.
  revert bp. induction radii as [|r radii IH]; intros bp.
  - simpl. unfold_monad. intros [= <- <- <- _]. by right.
  - simpl. unfold_monad.
    destruct (nodes_to_check nbp r h) as [[pool|e] h1] eqn:Epool; [|discriminate].
    assert (h1 = h) as ->.
    { pose proof (read_only_nodes_to_check nbp r h) as Hh. by rewrite Epool in Hh. }
    apply nodes_to_check_value in Epool as ->.
    destruct (generate_combinations (pool_of nbp r) t tol h) as [[[bc bp']|e] h2] eqn:Egc;
      [|discriminate].
    assert (h2 = h) as ->.
    { pose proof (read_only_generate_combinations (pool_of nbp r) t tol h) as Hh.
      by rewrite Egc in Hh. }
    apply generate_combinations_total in Egc
      as [[-> ->]|(comb & -> & -> & [Hsub Hne]%elem_of_enumeration)].
    + intros [[-> (r' & comb & Hr' & Hrest)]|(-> & -> & ->)]%IH.
      * left. split; [done|]. exists r', comb. split; [by right|done].
      * right. split; [done|]. split; [done|]. by destruct radii.
    + destruct comb as [|x c]; [done|].
      intros [= <- <- <- _]. left. split; [done|].
      exists r, (x :: c). split; [by left|done].
Qed.

Lemma list_to_set_nonempty (comb : list loc) :
  comb <> [] -> (list_to_set comb : gset loc) <> ∅.
Proof.
  destruct comb as [|x c]; [done|]. intros _ Hempty.
  assert (Hx : x ∈ (list_to_set (x :: c) : gset loc)) by (apply elem_of_list_to_set; by left).
  rewrite Hempty in Hx. by apply not_elem_of_empty in Hx.
Qed.

(** ** The total and the selected set: claim C9 *)

(** C9 as stated fails on a catalog that lists one object twice in tier 5:
    with target 100 and tolerance 0 the selector returns satisfied = true,
    the total 100 (the object counted at both positions) and the set of the
    one object, whose summed power is 50. *)
Lemma aliased_load_counted_twice :
  run (find_combination alias_catalog 100 0) alias_heap =
    (Ok ({[1%positive]}, Some 100, true), alias_heap) /\
  set_total alias_heap {[1%positive]} = 50 /\
  ~ (forall sel p h',
       run (find_combination alias_catalog 100 0) alias_heap = (Ok (sel, p, true), h') ->
       sel <> ∅ /\ p = Some (set_total alias_heap sel)).
Proof.
  assert (Hrun : run (find_combination alias_catalog 100 0) alias_heap =
                 (Ok ({[1%positive]}, Some 100, true), alias_heap))
    by (vm_compute; reflexivity).
  assert (Hset : set_total alias_heap {[1%positive]} = 50) by (vm_compute; reflexivity).
  split; [exact Hrun|]. split; [exact Hset|].
  intros Hclaim. destruct (Hclaim _ _ _ Hrun) as [_ Hp].
  rewrite Hset in Hp. discriminate.
Qed.

(** C9, amended.  Whatever the store and the catalog, when the selector
    returns: with satisfied = true the selected set is not empty, it is the
    set of the loads of a non-empty combination drawn from the tiers 5 to 2,
    and the total is the summed power of that combination, a load counted
    once for each position it takes in it; when no load is listed twice in
    the tiers 5 to 2, the total is the summed power of the selected set.
    With satisfied = false the set is empty and there is no total. *)
Theorem selector_total_of_matched_combination (h : heap) (nbp : gmap Z (list loc))
    (t tol : Z) (sel : gset loc) (p : option Z) (b : bool) (h' : heap) :
  run (find_combination nbp t tol) h = (Ok (sel, p, b), h') ->
  (b = true ->
     sel <> ∅ /\
     (exists comb, sublist comb (sheddable nbp) /\ comb <> [] /\
        sel = list_to_set comb /\ p = Some (total h comb)) /\
     (NoDup (sheddable nbp) -> p = Some (set_total h sel))) /\
  (b = false -> sel = ∅ /\ p = None).
Proof.
  unfold run, find_combination. intros Hrun.
  apply radius_loop_result in Hrun
    as [[-> (r & comb & Hr%elem_of_range_down & Hsub & Hne & -> & ->)]|(-> & -> & ->)].
  - split; [|done]. intros _. rewrite (left_id_L ∅ (∪)).
    assert (Hshed : sublist comb (sheddable nbp)).
    { etrans; [exact Hsub|]. apply pool_sublist. lia. }
    split; [by apply list_to_set_nonempty|]. split.
    + by exists comb.
    + intros Hnd. f_equal. symmetry. apply set_total_list_to_set.
      by eapply sublist_NoDup.
  - split; [done|]. intros _. split; reflexivity.
Qed.

(** C9 on the program's catalog with target 200 and tolerance 20: the set
    returned is not empty and its summed power is the total returned. *)
Lemma selector_total_of_matched_combination_witness :
  run (find_combination nodes_by_priority 200 20) heap0 =
    (Ok (list_to_set [12; 14]%positive, Some 200, true), heap0) /\
  (true = true ->
     (list_to_set [12; 14]%positive : gset loc) <> ∅ /\
     (exists comb, sublist comb (sheddable nodes_by_priority) /\ comb <> [] /\
        (list_to_set [12; 14]%positive : gset loc) = list_to_set comb /\
        Some 200 = Some (total heap0 comb)) /\
     (NoDup (sheddable nodes_by_priority) ->
        Some 200 = Some (set_total heap0 (list_to_set [12; 14]%positive)))) /\
  (true = false ->
     (list_to_set [12; 14]%positive : gset loc) = ∅ /\ Some 200 = None).
Proof.
  assert (Hrun : run (find_combination nodes_by_priority 200 20) heap0 =
                 (Ok (list_to_set [12; 14]%positive, Some 200, true), heap0))
    by (vm_compute; reflexivity).
  split; [exact Hrun|].
  exact (selector_total_of_matched_combination heap0 nodes_by_priority 200 20 _ _ _ heap0 Hrun).
Defined.

(** ** A match in the full catalog that no radius finds: claim C7 *)

(** C7 does not hold of the code.  On the program's catalog with target 10
    and tolerance 0 the selector returns the empty set, no total and
    satisfied = false, although a radius down to 1 was to search the full
    catalog: the pools of the radii 5 to 2 as stated hold no match, the pool
    of radius 1 as stated, all fourteen loads, holds the priority-1 load of
    10, and the matcher finds it there.  Nor is the first radius that
    yields a match the one returned: with target 80 and tolerance 10 the
    pool of radius 5 as stated, the priority-5 tier, yields the load of 90,
    and the selector returns the priority-4 load of 80. *)
Theorem full_catalog_match_missed :
  run (find_combination nodes_by_priority 10 0) heap0 = (Ok (∅, None, false), heap0) /\
  Forall (fun r => run (generate_combinations (stated_pool nodes_by_priority r) 10 0) heap0 =
                     (Ok (None, None), heap0)) [5; 4; 3; 2] /\
  stated_pool nodes_by_priority 1 =
    [12; 13; 14; 9; 10; 11; 7; 8; 4; 5; 6; 1; 2; 3]%positive /\
  run (generate_combinations (stated_pool nodes_by_priority 1) 10 0) heap0 =
    (Ok (Some [1%positive], Some 10), heap0) /\
  priorities heap0 [1]%positive = [Some 1] /\
  stated_pool nodes_by_priority 5 = [12; 13; 14]%positive /\
  run (generate_combinations (stated_pool nodes_by_priority 5) 80 10) heap0 =
    (Ok (Some [12%positive], Some 90), heap0) /\
  run (find_combination nodes_by_priority 80 10) heap0 =
    (Ok ({[11%positive]}, Some 80, true), heap0).
Proof.
  split; [vm_compute; reflexivity|]. split.
  { repeat (apply List.Forall_cons; [vm_compute; reflexivity|]). apply List.Forall_nil. }
  repeat split; vm_compute; reflexivity.
Qed.

(** * The network drawing *)

(** ** The loops of [plot_network] in closed form *)

Lemma for_in_tiers {S} (nbp : gmap Z (list loc)) (ps : list Z) (st : S)
    (body : loc -> S -> M S) (h : heap) :
  (forall p, p ∈ ps -> is_Some (nbp !! p)) ->
  for_in ps st (fun p st => nodes ← getitem nbp p; for_in nodes st body) h =
  for_in (flat_map (tier nbp) ps) st body h.
Proof.
  revert st h. induction ps as [|p ps IH]; intros st h Hps; [reflexivity|].
  destruct (Hps p) as [nodes Hp]; [by left|].
  simpl flat_map. rewrite for_in_app, for_in_cons. unfold_monad.
  unfold getitem, tier. rewrite Hp. unfold_monad. simpl.
  destruct (for_in nodes st body h) as [[st'|e] h']; [|reflexivity].
  apply IH. intros q Hq. apply Hps. by right.
Qed.

Lemma for_in_append {A C} (xs : list A) (body : A -> list C -> M (list C))
    (f : A -> list C) (h : heap) :
  (forall x net, x ∈ xs -> body x net h = (Ok (net ++ f x), h)) ->
  forall net, for_in xs net body h = (Ok (net ++ flat_map f xs), h).
Proof.
  induction xs as [|x xs IH]; intros Hb net.
  - simpl. by rewrite app_nil_r.
  - rewrite for_in_cons, Hb by left. rewrite IH by (intros y n Hy; apply Hb; by right).
    simpl. by rewrite app_assoc.
Qed.

Lemma plot_node_run qun sel node net k m h :
  is_Some (h !! node) ->
  plot_node qun sel node (net, k, m) h =
  (Ok (net ++ node_calls qun sel h [node] k, k + 1, <[node := k]> m), h).
Proof.
  intros [n Hn]. unfold plot_node, get_real_power, get_priority. unfold_monad.
  simpl. unfold drawn_node, power, prio. repeat (rewrite Hn; simpl). reflexivity.
Qed.

Lemma plot_nodes_run qun sel nodes net k m h :
  allocated h nodes ->
  for_in nodes (net, k, m) (plot_node qun sel) h =
  (Ok (net ++ node_calls qun sel h nodes k, k + Z.of_nat (length nodes),
       number_nodes nodes k m), h).
Proof.
  intros Hall. revert net k m. induction Hall as [|node nodes Hnode Hall IH]; intros net k m.
  - simpl. unfold_monad. by rewrite app_nil_r, Z.add_0_r.
  - rewrite for_in_cons, plot_node_run by done. rewrite IH.
    simpl node_calls. rewrite <- app_assoc. simpl.
    replace (k + 1 + Z.of_nat (length nodes)) with (k + Z.of_nat (S (length nodes))) by lia.
    reflexivity.
Qed.

Lemma plot_edge_run m node child net h :
  is_Some (m !! node) -> is_Some (m !! child) ->
  plot_edge m node child net h =
  (Ok (net ++ [add_edge (m !!! node) (m !!! child) "#DCDCDC"]), h).
Proof.
  intros [a Ha] [b Hb]. unfold plot_edge, getitem_node. unfold_monad.
  rewrite Ha, Hb. unfold_monad.
  by rewrite (lookup_total_correct _ _ _ Ha), (lookup_total_correct _ _ _ Hb).
Qed.

(** ** How the loads are numbered *)

Lemma number_nodes_other nodes k m node :
  node ∉ nodes -> number_nodes nodes k m !! node = m !! node.
Proof.
  revert k m. induction nodes as [|x nodes IH]; intros k m Hnot; [reflexivity|].
  apply not_elem_of_cons in Hnot as [Hne Hnot].
  simpl. rewrite IH by done. by rewrite lookup_insert_ne.
Qed.

Lemma number_nodes_bounds nodes k m node :
  node ∈ nodes ->
  exists v, number_nodes nodes k m !! node = Some v /\
    k <= v < k + Z.of_nat (length nodes).
Proof.
  revert k m. induction nodes as [|x nodes IH]; intros k m Hin; [by apply elem_of_nil in Hin|].
  simpl number_nodes. destruct (decide (node ∈ nodes)) as [Hlater|Hnot].
  - destruct (IH (k + 1) (<[x := k]> m) Hlater) as (v & Hv & Hb).
    exists v. split; [done|]. simpl length. lia.
  - apply elem_of_cons in Hin as [->|Hin]; [|done].
    exists k. rewrite number_nodes_other by done.
    rewrite lookup_insert_eq. split; [done|]. simpl length. lia.
Qed.

Lemma number_nodes_index nodes k m i node :
  NoDup nodes -> nodes !! i = Some node ->
  number_nodes nodes k m !! node = Some (k + Z.of_nat i).
Proof.
  intros Hnd. revert k m i. induction Hnd as [|x nodes Hx Hnd IH]; intros k m i Hi; [done|].
  simpl number_nodes. destruct i as [|i]; simpl in Hi.
  - injection Hi as ->. rewrite number_nodes_other by done.
    rewrite lookup_insert_eq. f_equal. lia.
  - rewrite (IH (k + 1) _ i Hi). f_equal. lia.
Qed.

(** ** The network on a listed catalog *)

Lemma elem_of_range_up (a b p : Z) : p ∈ range_up a b <-> a <= p < b.
Proof.
  unfold range_up. rewrite list_elem_of_fmap. split.
  - intros (i & -> & Hi%list_elem_of_In%in_seq). lia.
  - intros Hp. exists (Z.to_nat (p - a)). split; [lia|].
    apply list_elem_of_In, in_seq. lia.
Qed.

Lemma elem_of_all_nodes nbp node :
  node ∈ all_nodes nbp <-> exists p, 1 <= p <= 5 /\ node ∈ tier nbp p.
Proof.
  unfold all_nodes. rewrite list_elem_of_In, in_flat_map. split.
  - intros (p & Hp%list_elem_of_In%elem_of_range_up & Hn%list_elem_of_In).
    exists p. split; [lia|done].
  - intros (p & Hp & Hn). exists p. split; apply list_elem_of_In; [|done].
    apply elem_of_range_up. lia.
Qed.

Lemma listed_tier h nbp p :
  catalog_listed h nbp -> 1 <= p <= 5 ->
  nbp !! p = Some (tier nbp p) /\ allocated h (tier nbp p).
Proof.
  intros Hl Hp. destruct (Hl p Hp) as (nodes & Hnodes & Hall).
  unfold tier. rewrite Hnodes. done.
Qed.

Lemma listed_allocated h nbp : catalog_listed h nbp -> allocated h (all_nodes nbp).
Proof.
  intros Hl. apply Forall_forall. intros node (p & Hp & Hn)%elem_of_all_nodes.
  destruct (listed_tier h nbp p Hl Hp) as [_ Hall].
  unfold allocated in Hall. rewrite Forall_forall in Hall. by apply Hall.
Qed.

(** The calls [plot_network] makes on a catalog whose tiers are listed. *)
Lemma plot_network_run qun nbp sel h :
  catalog_listed h nbp ->
  run (plot_network qun nbp sel) h =
  (Ok (Network_new "600px" "100%" "#ffffff" "black" true ::
       node_calls qun (chosen sel) h (all_nodes nbp) 0 ++
       edge_calls (number_nodes (all_nodes nbp) 0 ∅) nbp ++
       [set_options network_options]), h).
Proof.
  intros Hl.
  set (m := number_nodes (all_nodes nbp) 0 ∅).
  assert (Hnodes : forall net,
    for_in (range_up 1 6) (net, 0, ∅)
      (fun priority st =>
         tier ← getitem nbp priority; for_in tier st (plot_node qun (chosen sel))) h =
    (Ok (net ++ node_calls qun (chosen sel) h (all_nodes nbp) 0,
         0 + Z.of_nat (length (all_nodes nbp)), m), h)).
  { intros net. rewrite for_in_tiers.
    - fold (all_nodes nbp). apply plot_nodes_run. by apply listed_allocated.
    - intros p Hp%elem_of_range_up.
      destruct (listed_tier h nbp p Hl) as [-> _]; [lia|eauto]. }
  assert (Hm : forall p node, 1 <= p <= 5 -> node ∈ tier nbp p -> is_Some (m !! node)).
  { intros p node Hp Hn.
    destruct (number_nodes_bounds (all_nodes nbp) 0 ∅ node) as (v & Hv & _); [|by eauto].
    apply elem_of_all_nodes. eauto. }
  assert (Hedges : forall net,
    for_in (range_up 1 5) net
      (fun priority net =>
         tier ← getitem nbp priority;
         for_in tier net
           (fun node net =>
              children ← getitem nbp (priority + 1);
              for_in children net (plot_edge m node))) h =
    (Ok (net ++ edge_calls m nbp), h)).
  { intros net. apply for_in_append.
    intros p net0 Hp%elem_of_range_up. unfold_monad. unfold getitem.
    destruct (listed_tier h nbp p Hl) as [-> _]; [lia|]. unfold_monad.
    apply for_in_append. intros node net' Hnode. unfold_monad.
    destruct (listed_tier h nbp (p + 1) Hl) as [-> _]; [lia|]. unfold_monad.
    apply for_in_append. intros child net'' Hchild.
    apply plot_edge_run; [apply (Hm p) | apply (Hm (p + 1))]; (lia || done). }
  unfold run, plot_network. fold (chosen sel). unfold_monad.
  rewrite Hnodes. rewrite Hedges. simpl. by rewrite <- app_assoc.
Qed.

Lemma added_nodes_app net1 net2 :
  added_nodes (net1 ++ net2) = added_nodes net1 ++ added_nodes net2.
Proof. apply flat_map_app. Qed.

Lemma added_edges_app net1 net2 :
  added_edges (net1 ++ net2) = added_edges net1 ++ added_edges net2.
Proof. apply flat_map_app. Qed.

Lemma added_nodes_node_calls qun sel h nodes k :
  added_nodes (node_calls qun sel h nodes k) =
  imap (fun i node => drawn_node qun sel h (k + Z.of_nat i) node) nodes.
Proof.
  revert k. induction nodes as [|node nodes IH]; intros k; [reflexivity|].
  simpl. rewrite IH, Z.add_0_r. f_equal.
  apply imap_ext. intros i x _. unfold compose.
  replace (k + 1 + Z.of_nat i) with (k + Z.of_nat (S i)) by lia. reflexivity.
Qed.

Lemma added_edges_node_calls qun sel h nodes k :
  added_edges (node_calls qun sel h nodes k) = [].
Proof. revert k. induction nodes as [|node nodes IH]; intros k; [reflexivity|]. apply IH. Qed.

Lemma added_nodes_edge_calls m nbp : added_nodes (edge_calls m nbp) = [].
Proof.
  unfold edge_calls, added_nodes. apply flat_map_all_nil.
  intros c (p & _ & (node & _ & (child & _ & Hc%list_elem_of_In)%in_flat_map
    )%in_flat_map)%list_elem_of_In%in_flat_map.
  apply list_elem_of_singleton in Hc as ->. reflexivity.
Qed.

(** The nodes and the edges of the network of a listed catalog. *)
Lemma plot_network_added qun nbp sel h net h' :
  catalog_listed h nbp ->
  run (plot_network qun nbp sel) h = (Ok net, h') ->
  added_nodes net =
    imap (fun i node => drawn_node qun (chosen sel) h (Z.of_nat i) node) (all_nodes nbp) /\
  added_edges net =
    added_edges (edge_calls (number_nodes (all_nodes nbp) 0 ∅) nbp).
Proof.
  intros Hl Hrun. rewrite (plot_network_run qun nbp sel h Hl) in Hrun.
  injection Hrun as <- _. split.
  - change (added_nodes (?c :: ?l)) with (added_nodes l).
    rewrite !added_nodes_app, added_nodes_node_calls, added_nodes_edge_calls.
    simpl. by rewrite app_nil_r.
  - change (added_edges (?c :: ?l)) with (added_edges l).
    rewrite !added_edges_app, added_edges_node_calls. simpl. by rewrite app_nil_r.
Qed.

(** X9. On a catalog whose five tiers are listed, [plot_network] returns,
    and the nodes it adds are one per listed load, tier 1 first and tier 5
    last, in the order of the lists: the i-th load (from 0) gets the number
    i, the label "Node i+1" with its rating, unit and priority, the title
    with its power and priority, and the colour red when it is in
    [selected_nodes] and #87CEEB when it is not, or when no set is given. *)
Theorem plot_network_draws_each_load (qun : string) (nbp : gmap Z (list loc))
    (sel : option (gset loc)) (h : heap) :
  catalog_listed h nbp ->
  exists net,
    run (plot_network qun nbp sel) h = (Ok net, h) /\
    added_nodes net =
      imap (fun i node =>
              (Z.of_nat i,
               node_label (Z.of_nat i) (power h node) qun (prio h node),
               node_title (power h node) (prio h node),
               if bool_decide (node ∈ chosen sel) then "red" else "#87CEEB"))
           (all_nodes nbp).
Proof.
  intros Hl. eexists. split; [by apply plot_network_run|].
  apply (plot_network_added qun nbp sel h _ h Hl). by apply plot_network_run.
Qed.

(** ** Node numbers and edges *)

Lemma node_ids_imap qun sel h nodes k :
  map (fun d : Z * string * string * string => d.1.1.1)
    (imap (fun i node => drawn_node qun sel h (Z.of_nat (k + i)) node) nodes) =
  Z.of_nat <$> seq k (length nodes).
Proof.
  revert k. induction nodes as [|node nodes IH]; intros k; [reflexivity|].
  simpl. rewrite Nat.add_0_r. f_equal. rewrite <- IH. f_equal.
  apply imap_ext. intros i x _. unfold compose. by rewrite Nat.add_succ_r.
Qed.

Lemma elem_of_added_edges net a b :
  (a, b) ∈ added_edges net <-> exists color, add_edge a b color ∈ net.
Proof.
  unfold added_edges. rewrite list_elem_of_In, in_flat_map. split.
  - intros (c & Hc%list_elem_of_In & Hab%list_elem_of_In).
    destruct c; try by apply elem_of_nil in Hab.
    apply list_elem_of_singleton in Hab as [= -> ->]. eauto.
  - intros (color & Hc). exists (add_edge a b color).
    split; apply list_elem_of_In; [done|]. by apply list_elem_of_singleton.
Qed.

Lemma elem_of_edge_calls m nbp c :
  c ∈ edge_calls m nbp <->
  exists p node child, 1 <= p <= 4 /\ node ∈ tier nbp p /\ child ∈ tier nbp (p + 1) /\
    c = add_edge (m !!! node) (m !!! child) "#DCDCDC".
Proof.
  unfold edge_calls. rewrite list_elem_of_In, in_flat_map. split.
  - intros (p & Hp%list_elem_of_In%elem_of_range_up &
            (node & Hnode%list_elem_of_In &
             (child & Hchild%list_elem_of_In & Hc%list_elem_of_In)%in_flat_map)%in_flat_map).
    apply list_elem_of_singleton in Hc. exists p, node, child.
    split; [lia|done].
  - intros (p & node & child & Hp & Hnode & Hchild & ->).
    exists p. split; [apply list_elem_of_In, elem_of_range_up; lia|].
    apply in_flat_map. exists node. split; [by apply list_elem_of_In|].
    apply in_flat_map. exists child. split; [by apply list_elem_of_In|].
    by left.
Qed.

(** X10. On a catalog whose five tiers are listed, the nodes of the network
    are numbered 0, 1, ..., n - 1 without gap or repetition, n being the
    number of listed loads, and every edge joins two of these numbers: no
    edge is added for a node that was not added before. *)
Theorem plot_network_edges_join_nodes (qun : string) (nbp : gmap Z (list loc))
    (sel : option (gset loc)) (h : heap) (net : list net_call) (h' : heap) :
  catalog_listed h nbp ->
  run (plot_network qun nbp sel) h = (Ok net, h') ->
  node_ids net = Z.of_nat <$> seq 0 (length (all_nodes nbp)) /\
  forall a b, (a, b) ∈ added_edges net -> a ∈ node_ids net /\ b ∈ node_ids net.
Proof.
  intros Hl Hrun.
  destruct (plot_network_added qun nbp sel h net h' Hl Hrun) as [Hnodes Hedges].
  assert (Hids : node_ids net = Z.of_nat <$> seq 0 (length (all_nodes nbp))).
  { unfold node_ids. rewrite Hnodes. apply (node_ids_imap qun (chosen sel) h _ 0%nat). }
  split; [done|]. intros a b Hab. rewrite Hedges in Hab.
  apply elem_of_added_edges in Hab as (color & Hc).
  apply elem_of_edge_calls in Hc as (p & node & child & Hp & Hnode & Hchild & [= -> -> _]).
  assert (Hin : forall q x, 1 <= q <= 5 -> x ∈ tier nbp q ->
    (number_nodes (all_nodes nbp) 0 ∅ !!! x : Z) ∈ node_ids net).
  { intros q x Hq Hx.
    destruct (number_nodes_bounds (all_nodes nbp) 0 ∅ x) as (v & Hv & Hb).
    { apply elem_of_all_nodes. eauto. }
    rewrite (lookup_total_correct _ _ _ Hv), Hids.
    apply list_elem_of_fmap. exists (Z.to_nat v). split; [lia|].
    apply list_elem_of_In, in_seq. lia. }
  split; [apply (Hin p) | apply (Hin (p + 1))]; (lia || done).
Qed.

Lemma length_child_edges (m : gmap loc Z) (a : Z) (cs : list loc) :
  length (added_edges
            (flat_map (fun child => [add_edge a (m !!! child) "#DCDCDC"]) cs)) =
  length cs.
Proof. induction cs as [|child cs IH]; [reflexivity|]. simpl. by rewrite IH. Qed.

Lemma length_pair_edges (m : gmap loc Z) (ns cs : list loc) :
  length (added_edges (flat_map (fun node =>
            flat_map (fun child => [add_edge (m !!! node) (m !!! child) "#DCDCDC"]) cs) ns)) =
  (length ns * length cs)%nat.
Proof.
  induction ns as [|node ns IH]; [reflexivity|].
  simpl flat_map. rewrite added_edges_app, length_app, IH, length_child_edges.
  simpl. lia.
Qed.

(** X11. On a catalog whose five tiers are listed, the network has one edge
    for each pair of a load of tier p and a load of tier p + 1, p from 1 to
    4, and no other: their number is the sum of the products of the sizes
    of consecutive tiers. *)
Theorem plot_network_edge_count (qun : string) (nbp : gmap Z (list loc))
    (sel : option (gset loc)) (h : heap) (net : list net_call) (h' : heap) :
  catalog_listed h nbp ->
  run (plot_network qun nbp sel) h = (Ok net, h') ->
  length (added_edges net) =
  (length (tier nbp 1) * length (tier nbp 2) + length (tier nbp 2) * length (tier nbp 3) +
   length (tier nbp 3) * length (tier nbp 4) + length (tier nbp 4) * length (tier nbp 5))%nat.
Proof.
  intros Hl Hrun.
  destruct (plot_network_added qun nbp sel h net h' Hl Hrun) as [_ ->].
  unfold edge_calls. change (range_up 1 5) with [1; 2; 3; 4].
  simpl flat_map. rewrite app_nil_r, !added_edges_app, !length_app, !length_pair_edges.
  change (1 + 1) with 2. change (2 + 1) with 3. change (3 + 1) with 4. change (4 + 1) with 5.
  lia.
Qed.

(** ** The network of a tier catalog *)

Lemma catalog_ok_listed h nbp : catalog_ok h nbp -> catalog_listed h nbp.
Proof.
  intros Hok p Hp. destruct (Hok p Hp) as (nodes & Hnodes & _ & Hall).
  exists nodes. split; [done|]. unfold allocated.
  eapply Forall_impl; [exact Hall|]. intros l (n & -> & _). eauto.
Qed.

Lemma tier_prio h nbp p node :
  catalog_ok h nbp -> 1 <= p <= 5 -> node ∈ tier nbp p -> prio h node = p.
Proof.
  intros Hok Hp Hnode. destruct (Hok p Hp) as (nodes & Hnodes & _ & Hall).
  unfold tier in Hnode. rewrite Hnodes in Hnode. simpl in Hnode.
  rewrite Forall_forall in Hall. destruct (Hall node Hnode) as (n & Hn & Hprio).
  unfold prio. by rewrite Hn.
Qed.

Lemma NoDup_range_up (a b : Z) : NoDup (range_up a b).
Proof.
  unfold range_up. apply NoDup_fmap_2; [|apply NoDup_seq].
  intros i j Hij. lia.
Qed.

Lemma NoDup_all_nodes h nbp : catalog_ok h nbp -> NoDup (all_nodes nbp).
Proof.
  intros Hok. unfold all_nodes.
  assert (Hps : forall p, p ∈ range_up 1 6 -> 1 <= p <= 5).
  { intros p Hp%elem_of_range_up. lia. }
  pose proof (NoDup_range_up 1 6) as Hnd.
  induction Hnd as [|p ps Hp Hnd IH]; [constructor|].
  simpl. apply NoDup_app. split; [|split].
  - destruct (Hok p) as (nodes & Hnodes & Hnodup & _); [apply Hps; by left|].
    unfold tier. by rewrite Hnodes.
  - intros l Hl [q [Hq%list_elem_of_In Hlq%list_elem_of_In]]%list_elem_of_In%in_flat_map.
    assert (p = q) as ->; [|done].
    rewrite <- (tier_prio h nbp p l Hok), <- (tier_prio h nbp q l Hok); try done.
    + apply Hps. by right.
    + apply Hps. by left.
  - apply IH. intros q Hq. apply Hps. by right.
Qed.

Lemma number_of_node h nbp i node :
  catalog_ok h nbp -> all_nodes nbp !! i = Some node ->
  (number_nodes (all_nodes nbp) 0 ∅ !!! node : Z) = Z.of_nat i.
Proof.
  intros Hok Hi. apply lookup_total_correct.
  rewrite (number_nodes_index _ 0 ∅ i node (NoDup_all_nodes h nbp Hok) Hi).
  reflexivity.
Qed.

(** X12. On a tier catalog the edges of the network join exactly the nodes
    of two loads whose priorities are consecutive, from the load of
    priority p to the load of priority p + 1: an edge from number a to
    number b is added if and only if the a-th and the b-th listed loads
    have priorities that differ by one in that order. *)
Theorem plot_network_edges_consecutive_tiers (qun : string) (nbp : gmap Z (list loc))
    (sel : option (gset loc)) (h : heap) (net : list net_call) (h' : heap) :
  catalog_ok h nbp ->
  run (plot_network qun nbp sel) h = (Ok net, h') ->
  forall a b,
    (a, b) ∈ added_edges net <->
    exists i j node child,
      a = Z.of_nat i /\ b = Z.of_nat j /\
      all_nodes nbp !! i = Some node /\ all_nodes nbp !! j = Some child /\
      prio h child = prio h node + 1.
Proof.
  intros Hok Hrun a b.
  destruct (plot_network_added qun nbp sel h net h' (catalog_ok_listed h nbp Hok) Hrun)
    as [_ ->].
  rewrite elem_of_added_edges. split.
  - intros (color & (p & node & child & Hp & Hnode & Hchild & [= -> -> _])%elem_of_edge_calls).
    assert (node ∈ all_nodes nbp) as [i Hi]%list_elem_of_lookup_1.
    { apply elem_of_all_nodes. exists p. split; [lia|done]. }
    assert (child ∈ all_nodes nbp) as [j Hj]%list_elem_of_lookup_1.
    { apply elem_of_all_nodes. exists (p + 1). split; [lia|done]. }
    exists i, j, node, child.
    rewrite (number_of_node h nbp i node Hok Hi), (number_of_node h nbp j child Hok Hj).
    do 4 (split; [done|]).
    rewrite (tier_prio h nbp p node), (tier_prio h nbp (p + 1) child); (lia || done).
  - intros (i & j & node & child & -> & -> & Hi & Hj & Hprio).
    apply list_elem_of_lookup_2 in Hi as Hnode. apply list_elem_of_lookup_2 in Hj as Hchild.
    apply elem_of_all_nodes in Hnode as (p & Hp & Hnode).
    apply elem_of_all_nodes in Hchild as (q & Hq & Hchild).
    rewrite (tier_prio h nbp p node), (tier_prio h nbp q child) in Hprio by done.
    subst q. exists "#DCDCDC". apply elem_of_edge_calls.
    exists p, node, child. split; [lia|]. do 2 (split; [done|]).
    by rewrite (number_of_node h nbp i node Hok Hi), (number_of_node h nbp j child Hok Hj).
Qed.

(** ** Missing tiers and the store *)

(** X13. [plot_network] reads the tiers in the order 1 to 5 before it adds
    any edge: when tier [k] is the first that the catalog does not list, it
    raises KeyError [k].  Tier 1, which the selector never reads, is the
    first it needs. *)
Theorem plot_network_missing_tier (qun : string) (nbp : gmap Z (list loc))
    (sel : option (gset loc)) (h : heap) (k : Z) :
  1 <= k <= 5 ->
  nbp !! k = None ->
  (forall p, 1 <= p < k -> exists nodes, nbp !! p = Some nodes /\ allocated h nodes) ->
  run (plot_network qun nbp sel) h = (Raise (KeyError k), h).
Proof.
  intros Hk Hmissing Hbelow.
  assert (Hloop : forall net,
    for_in (range_up 1 6) (net, 0, ∅)
      (fun priority st =>
         tier ← getitem nbp priority; for_in tier st (plot_node qun (chosen sel))) h =
    (Raise (KeyError k), h)).
  { intros net.
    assert (exists before after, range_up 1 6 = before ++ k :: after /\
              forall p, p ∈ before -> 1 <= p < k) as (before & after & -> & Hbefore).
    { change (range_up 1 6) with [1; 2; 3; 4; 5].
      assert (k = 1 \/ k = 2 \/ k = 3 \/ k = 4 \/ k = 5) as [->|[->|[->|[->| ->]]]] by lia.
      - exists [], [2; 3; 4; 5]. split; [done|]. intros p Hp. list_cases Hp.
      - exists [1], [3; 4; 5]. split; [done|]. intros p Hp. list_cases Hp.
      - exists [1; 2], [4; 5]. split; [done|]. intros p Hp. list_cases Hp.
      - exists [1; 2; 3], [5]. split; [done|]. intros p Hp. list_cases Hp.
      - exists [1; 2; 3; 4], []. split; [done|]. intros p Hp. list_cases Hp. }
    rewrite for_in_app, for_in_tiers.
    2:{ intros p Hp. destruct (Hbelow p (Hbefore p Hp)) as (nodes & -> & _). eauto. }
    rewrite plot_nodes_run.
    - rewrite for_in_cons. unfold_monad. unfold getitem. by rewrite Hmissing.
    - apply Forall_forall. intros node.
      rewrite list_elem_of_In, in_flat_map.
      intros (p & Hp%list_elem_of_In & Hnode%list_elem_of_In).
      destruct (Hbelow p (Hbefore p Hp)) as (nodes & Hnodes & Hall).
      unfold tier in Hnode. rewrite Hnodes in Hnode. simpl in Hnode.
      unfold allocated in Hall. rewrite Forall_forall in Hall. by apply Hall. }
  unfold run, plot_network. fold (chosen sel). unfold_monad. by rewrite Hloop.
Qed.

Lemma read_only_get_priority l : read_only (get_priority l).
Proof. intros h. unfold get_priority. by destruct (h !! l). Qed.

Lemma read_only_getitem_node m node : read_only (getitem_node m node).
Proof.
  unfold getitem_node. destruct (m !! node); [apply read_only_ret | apply read_only_raise].
Qed.

Lemma read_only_plot_node qun sel node st : read_only (plot_node qun sel node st).
Proof.
  destruct st as [[net k] m]. unfold plot_node.
  repeat (apply read_only_bind;
          [first [apply read_only_get_real_power | apply read_only_get_priority]|intros ?]).
  apply read_only_ret.
Qed.

Lemma read_only_plot_edge m node child net : read_only (plot_edge m node child net).
Proof.
  unfold plot_edge.
  repeat (apply read_only_bind; [apply read_only_getitem_node|intros ?]).
  apply read_only_ret.
Qed.

(** X14. [plot_network] leaves the store as it was, whether it returns or
    raises: it changes no load, and in particular never sets the
    [selected] attribute of the loads it colours. *)
Theorem plot_network_leaves_loads_untouched (qun : string) (nbp : gmap Z (list loc))
    (sel : option (gset loc)) (h : heap) :
  snd (run (plot_network qun nbp sel) h) = h.
Proof.
  revert h. change (read_only (plot_network qun nbp sel)). unfold plot_network.
  apply read_only_bind.
  - apply read_only_for_in. intros p st.
    apply read_only_bind; [apply read_only_getitem|]. intros nodes.
    apply read_only_for_in. intros node st'. apply read_only_plot_node.
  - intros [[net k] m]. apply read_only_bind; [|intros ?; apply read_only_ret].
    apply read_only_for_in. intros p net'.
    apply read_only_bind; [apply read_only_getitem|]. intros nodes.
    apply read_only_for_in. intros node net''.
    apply read_only_bind; [apply read_only_getitem|]. intros children.
    apply read_only_for_in. intros child net3. apply read_only_plot_edge.
Qed.

(** ** The selection drawn *)

Lemma red_iff (sel : gset loc) (node : loc) :
  (if bool_decide (node ∈ sel) then "red" else "#87CEEB") = "red" <-> node ∈ sel.
Proof. case_bool_decide; split; (done || discriminate). Qed.

Lemma length_red qun sel h nodes k :
  length (filter (fun d : Z * string * string * string => d.2 = "red")
            (imap (fun i node => drawn_node qun sel h (Z.of_nat (k + i)) node) nodes)) =
  length (filter (fun node => node ∈ sel) nodes).
Proof.
  revert k. induction nodes as [|node nodes IH]; intros k; [reflexivity|].
  rewrite imap_cons.
  assert (Htail : imap ((fun i node => drawn_node qun sel h (Z.of_nat (k + i)) node) ∘ S) nodes
                  = imap (fun i node => drawn_node qun sel h (Z.of_nat (S k + i)) node) nodes).
  { apply imap_ext. intros i x _. unfold compose. by rewrite Nat.add_succ_r. }
  rewrite Htail. destruct (decide (node ∈ sel)) as [Hin|Hout].
  - rewrite !filter_cons_True by (simpl; first [by apply red_iff | done]).
    rewrite !length_cons. f_equal. apply IH.
  - rewrite !filter_cons_False by (simpl; first [by rewrite red_iff | done]).
    apply IH.
Qed.

Lemma length_filter_elem_of (X : gset loc) (l : list loc) :
  NoDup l -> (forall x, x ∈ X -> x ∈ l) ->
  length (filter (fun x => x ∈ X) l) = size X.
Proof.
  intros Hnd Hsub. unfold size, set_size. simpl. apply Permutation_length.
  apply NoDup_Permutation.
  - by apply NoDup_filter.
  - apply NoDup_elements.
  - intros x. rewrite list_elem_of_filter, elem_of_elements. split.
    + by intros [? _].
    + intros Hx. split; [done|]. by apply Hsub.
Qed.

(** The loads the selector returns on a tier catalog are listed in it. *)
Lemma selection_listed h nbp t tol sel p b h' :
  catalog_ok h nbp ->
  run (find_combination nbp t tol) h = (Ok (sel, p, b), h') ->
  forall node, node ∈ sel -> node ∈ all_nodes nbp.
Proof.
  intros Hok Hrun node Hnode.
  destruct (find_combination_outcome h nbp Hok t tol)
    as [[Hnone _]|(r & comb & Hr & _ & Hc & _ & Hfound)].
  - rewrite Hnone in Hrun. injection Hrun as <- _ _ _. by apply not_elem_of_empty in Hnode.
  - rewrite Hfound in Hrun. injection Hrun as <- _ _ _.
    apply elem_of_list_to_set in Hnode.
    apply elem_of_enumeration in Hc as [Hsub _].
    eapply sublist_submseteq, elem_of_submseteq in Hsub; [|exact Hnode].
    destruct (elem_of_pool_of h nbp Hok r node Hr Hsub) as (n & Hn & Hprio & Htier).
    apply elem_of_all_nodes. exists (priority n). split; [lia|done].
Qed.

(** X15. On a tier catalog, the network drawn with the set the selector
    returned has as many red nodes as the set has loads, and its red nodes
    are exactly the nodes of the loads of the set: every selected load is
    shown once in red and no other node is red. *)
Theorem drawing_highlights_selection (qun : string) (nbp : gmap Z (list loc)) (t tol : Z)
    (h : heap) (sel : gset loc) (p : option Z) (b : bool) (h' : heap)
    (net : list net_call) (h'' : heap) :
  catalog_ok h nbp ->
  run (find_combination nbp t tol) h = (Ok (sel, p, b), h') ->
  run (plot_network qun nbp (Some sel)) h = (Ok net, h'') ->
  length (red_ids net) = size sel /\
  forall a, a ∈ red_ids net <->
    exists i node, a = Z.of_nat i /\ all_nodes nbp !! i = Some node /\ node ∈ sel.
Proof.
  intros Hok Hsel Hplot.
  destruct (plot_network_added qun nbp (Some sel) h net h'' (catalog_ok_listed h nbp Hok) Hplot)
    as [Hnodes _].
  unfold red_ids. rewrite Hnodes. simpl chosen. split.
  - rewrite length_map. etrans; [exact (length_red qun sel h (all_nodes nbp) 0)|].
    apply length_filter_elem_of; [by eapply NoDup_all_nodes|].
    by eapply selection_listed.
  - intros a. rewrite list_elem_of_fmap. split.
    + intros (d & -> & [Hred (i & node & -> & Hi)%elem_of_lookup_imap]%list_elem_of_filter).
      exists i, node. split; [done|]. split; [done|]. by apply red_iff in Hred.
    + intros (i & node & -> & Hi & Hin).
      exists (drawn_node qun sel h (Z.of_nat i) node). split; [done|].
      apply list_elem_of_filter. split; [simpl; by apply red_iff|].
      apply elem_of_lookup_imap. eauto.
Qed.

(** * The further properties on the program's catalog *)

(** Membership in a list of loads that is written out: one goal per load. *)
Ltac each_load Hl :=
  vm_compute in Hl;
  repeat (apply elem_of_cons in Hl as [->|Hl]);
  [..|exfalso; apply elem_of_nil in Hl; exact Hl].

(** X1 on the program's catalog and the same without its tier 1. *)
Lemma selector_reads_tiers_two_to_five_witness :
  (forall p, 2 <= p <= 5 -> nodes_by_priority !! p = delete 1 nodes_by_priority !! p) /\
  run (find_combination nodes_by_priority 200 20) heap0 =
  run (find_combination (delete 1 nodes_by_priority) 200 20) heap0.
Proof.
  assert (Hagree : forall p, 2 <= p <= 5 ->
            nodes_by_priority !! p = delete 1 nodes_by_priority !! p).
  { intros p Hp. symmetry. apply lookup_delete_ne. lia. }
  split; [exact Hagree|].
  exact (selector_reads_tiers_two_to_five nodes_by_priority (delete 1 nodes_by_priority)
           200 20 heap0 Hagree).
Defined.

(** X2 on the program's catalog without its tier 4. *)
Lemma selector_missing_tier_witness :
  2 <= 4 <= 5 /\
  delete 4 nodes_by_priority !! 4 = None /\
  (forall p, 4 < p <= 5 -> is_Some (delete 4 nodes_by_priority !! p)) /\
  run (find_combination (delete 4 nodes_by_priority) 200 20) heap0 =
    (Raise (KeyError 4), heap0).
Proof.
  assert (Hk : 2 <= 4 <= 5) by lia.
  assert (Hmissing : delete 4 nodes_by_priority !! 4 = None) by apply lookup_delete_eq.
  assert (Habove : forall p, 4 < p <= 5 -> is_Some (delete 4 nodes_by_priority !! p)).
  { intros p Hp. assert (p = 5) as -> by lia. eexists. vm_compute. reflexivity. }
  split; [exact Hk|]. split; [exact Hmissing|]. split; [exact Habove|].
  exact (selector_missing_tier (delete 4 nodes_by_priority) 200 20 heap0 4
           Hk Hmissing Habove).
Defined.

(** X3 on the program's catalog with target 200 and tolerance 20. *)
Lemma selector_is_matcher_on_sheddable_witness :
  tiers_ready heap0 nodes_by_priority /\
  run (find_combination nodes_by_priority 200 20) heap0 =
  match run (generate_combinations (sheddable nodes_by_priority) 200 20) heap0 with
  | (Ok (Some comb, p), _) => (Ok (list_to_set comb, p, true), heap0)
  | (Ok (None, _), _) => (Ok (∅, None, false), heap0)
  | (Raise e, _) => (Raise e, heap0)
  end.
Proof.
  split; [exact (catalog_ready _ _ source_catalog_ok)|].
  exact (selector_is_matcher_on_sheddable heap0 nodes_by_priority 200 20
           (catalog_ready _ _ source_catalog_ok)).
Defined.

(** X4 on the program's catalog with target 200 and tolerance 20: 90 + 110
    fits, and the selector is satisfied. *)
Lemma selector_satisfied_iff_some_subset_fits_witness :
  tiers_ready heap0 nodes_by_priority /\
  (exists s, sublist s (sheddable nodes_by_priority) /\ s <> [] /\
     in_band 200 20 (total heap0 s)) /\
  (exists sel p, run (find_combination nodes_by_priority 200 20) heap0 =
                   (Ok (sel, p, true), heap0)).
Proof.
  assert (Hfits : exists s, sublist s (sheddable nodes_by_priority) /\ s <> [] /\
                    in_band 200 20 (total heap0 s)).
  { exists [12; 14]%positive. split; [|split].
    - assert (Hs : sheddable nodes_by_priority =
                   [12; 13; 14; 9; 10; 11; 7; 8; 4; 5; 6]%positive)
        by (vm_compute; reflexivity).
      rewrite Hs. apply sublist_skip, sublist_cons, sublist_skip, sublist_nil_l.
    - discriminate.
    - split; apply Z.leb_le; vm_compute; reflexivity. }
  split; [exact (catalog_ready _ _ source_catalog_ok)|]. split; [exact Hfits|].
  exact (proj2 (selector_satisfied_iff_some_subset_fits heap0 nodes_by_priority 200 20
                  (catalog_ready _ _ source_catalog_ok)) Hfits).
Defined.

(** X5 on the program's catalog with target 200 and tolerance 20. *)
Lemma selector_closest_of_sheddable_witness :
  tiers_ready heap0 nodes_by_priority /\
  run (find_combination nodes_by_priority 200 20) heap0 =
    (Ok (list_to_set [12; 14]%positive, Some 200, true), heap0) /\
  in_band 200 20 200 /\
  forall s, sublist s (sheddable nodes_by_priority) -> s <> [] ->
    in_band 200 20 (total heap0 s) ->
    deviation 200 200 <= deviation 200 (total heap0 s).
Proof.
  assert (Hrun : run (find_combination nodes_by_priority 200 20) heap0 =
                 (Ok (list_to_set [12; 14]%positive, Some 200, true), heap0))
    by (vm_compute; reflexivity).
  split; [exact (catalog_ready _ _ source_catalog_ok)|]. split; [exact Hrun|].
  exact (selector_closest_of_sheddable heap0 nodes_by_priority 200 20 _ 200 heap0
           (catalog_ready _ _ source_catalog_ok) Hrun).
Defined.

(** X6 on the program's catalog, whose tiers 2 to 5 sum to 675, with target
    1000 and tolerance 10. *)
Lemma selector_target_above_capacity_witness :
  tiers_ready heap0 nodes_by_priority /\
  (forall l, l ∈ sheddable nodes_by_priority -> 0 <= power heap0 l) /\
  total heap0 (sheddable nodes_by_priority) < 1000 - 10 /\
  run (find_combination nodes_by_priority 1000 10) heap0 = (Ok (∅, None, false), heap0).
Proof.
  assert (Hpos : forall l, l ∈ sheddable nodes_by_priority -> 0 <= power heap0 l).
  { intros l Hl. each_load Hl; apply Z.leb_le; vm_compute; reflexivity. }
  assert (Hcap : total heap0 (sheddable nodes_by_priority) < 1000 - 10)
    by (vm_compute; reflexivity).
  split; [exact (catalog_ready _ _ source_catalog_ok)|].
  split; [exact Hpos|]. split; [exact Hcap|].
  exact (selector_target_above_capacity heap0 nodes_by_priority 1000 10
           (catalog_ready _ _ source_catalog_ok) Hpos Hcap).
Defined.

(** X7 on the program's catalog, whose smallest load of the tiers 2 to 5 is
    15, with target 5 and tolerance 5. *)
Lemma selector_target_below_every_load_witness :
  tiers_ready heap0 nodes_by_priority /\
  0 <= 5 + 5 /\
  (forall l, l ∈ sheddable nodes_by_priority -> 5 + 5 < power heap0 l) /\
  run (find_combination nodes_by_priority 5 5) heap0 = (Ok (∅, None, false), heap0).
Proof.
  assert (Hnonneg : 0 <= 5 + 5) by lia.
  assert (Hbig : forall l, l ∈ sheddable nodes_by_priority -> 5 + 5 < power heap0 l).
  { intros l Hl. each_load Hl; vm_compute; reflexivity. }
  split; [exact (catalog_ready _ _ source_catalog_ok)|].
  split; [exact Hnonneg|]. split; [exact Hbig|].
  exact (selector_target_below_every_load heap0 nodes_by_priority 5 5
           (catalog_ready _ _ source_catalog_ok) Hnonneg Hbig).
Defined.

(** X9 on the program's catalog, drawn with the loads of 90 and 110
    selected. *)
Lemma plot_network_draws_each_load_witness :
  catalog_listed heap0 nodes_by_priority /\
  exists net,
    run (plot_network "kw" nodes_by_priority (Some {[12%positive; 14%positive]})) heap0 =
      (Ok net, heap0) /\
    added_nodes net =
      imap (fun i node =>
              (Z.of_nat i,
               node_label (Z.of_nat i) (power heap0 node) "kw" (prio heap0 node),
               node_title (power heap0 node) (prio heap0 node),
               if bool_decide (node ∈ chosen (Some {[12%positive; 14%positive]}))
               then "red" else "#87CEEB"))
           (all_nodes nodes_by_priority).
Proof.
  split; [exact (catalog_ok_listed _ _ source_catalog_ok)|].
  exact (plot_network_draws_each_load "kw" nodes_by_priority
           (Some {[12%positive; 14%positive]}) heap0
           (catalog_ok_listed _ _ source_catalog_ok)).
Defined.

(** X10 on the program's catalog: fourteen nodes, numbered 0 to 13. *)
Lemma plot_network_edges_join_nodes_witness :
  catalog_listed heap0 nodes_by_priority /\
  exists net,
    run (plot_network "kw" nodes_by_priority None) heap0 = (Ok net, heap0) /\
    node_ids net = Z.of_nat <$> seq 0 (length (all_nodes nodes_by_priority)) /\
    forall a b, (a, b) ∈ added_edges net -> a ∈ node_ids net /\ b ∈ node_ids net.
Proof.
  split; [exact (catalog_ok_listed _ _ source_catalog_ok)|].
  eexists. split; [exact (plot_network_run "kw" nodes_by_priority None heap0
                            (catalog_ok_listed _ _ source_catalog_ok))|].
  exact (plot_network_edges_join_nodes "kw" nodes_by_priority None heap0 _ heap0
           (catalog_ok_listed _ _ source_catalog_ok)
           (plot_network_run "kw" nodes_by_priority None heap0
              (catalog_ok_listed _ _ source_catalog_ok))).
Defined.

(** X11 on the program's catalog: 3 * 3 + 3 * 2 + 2 * 3 + 3 * 3 = 30
    edges. *)
Lemma plot_network_edge_count_witness :
  catalog_listed heap0 nodes_by_priority /\
  exists net,
    run (plot_network "kw" nodes_by_priority None) heap0 = (Ok net, heap0) /\
    length (added_edges net) = 30%nat.
Proof.
  split; [exact (catalog_ok_listed _ _ source_catalog_ok)|].
  eexists. split; [exact (plot_network_run "kw" nodes_by_priority None heap0
                            (catalog_ok_listed _ _ source_catalog_ok))|].
  exact (plot_network_edge_count "kw" nodes_by_priority None heap0 _ heap0
           (catalog_ok_listed _ _ source_catalog_ok)
           (plot_network_run "kw" nodes_by_priority None heap0
              (catalog_ok_listed _ _ source_catalog_ok))).
Defined.

(** X12 on the program's catalog. *)
Lemma plot_network_edges_consecutive_tiers_witness :
  catalog_ok heap0 nodes_by_priority /\
  exists net,
    run (plot_network "kw" nodes_by_priority None) heap0 = (Ok net, heap0) /\
    forall a b,
      (a, b) ∈ added_edges net <->
      exists i j node child,
        a = Z.of_nat i /\ b = Z.of_nat j /\
        all_nodes nodes_by_priority !! i = Some node /\
        all_nodes nodes_by_priority !! j = Some child /\
        prio heap0 child = prio heap0 node + 1.
Proof.
  split; [exact source_catalog_ok|].
  eexists. split; [exact (plot_network_run "kw" nodes_by_priority None heap0
                            (catalog_ok_listed _ _ source_catalog_ok))|].
  exact (plot_network_edges_consecutive_tiers "kw" nodes_by_priority None heap0 _ heap0
           source_catalog_ok
           (plot_network_run "kw" nodes_by_priority None heap0
              (catalog_ok_listed _ _ source_catalog_ok))).
Defined.

(** X13 on the program's catalog without its tier 1, which the selector
    accepts. *)
Lemma plot_network_missing_tier_witness :
  1 <= 1 <= 5 /\
  delete 1 nodes_by_priority !! 1 = None /\
  (forall p, 1 <= p < 1 ->
     exists nodes, delete 1 nodes_by_priority !! p = Some nodes /\ allocated heap0 nodes) /\
  run (plot_network "kw" (delete 1 nodes_by_priority) None) heap0 =
    (Raise (KeyError 1), heap0).
Proof.
  assert (Hk : 1 <= 1 <= 5) by lia.
  assert (Hmissing : delete 1 nodes_by_priority !! 1 = None) by apply lookup_delete_eq.
  assert (Hbelow : forall p, 1 <= p < 1 ->
            exists nodes, delete 1 nodes_by_priority !! p = Some nodes /\
                          allocated heap0 nodes)
    by (intros p Hp; lia).
  split; [exact Hk|]. split; [exact Hmissing|]. split; [exact Hbelow|].
  exact (plot_network_missing_tier "kw" (delete 1 nodes_by_priority) None heap0 1
           Hk Hmissing Hbelow).
Defined.

(** X15 on the program's catalog with target 200 and tolerance 20: two red
    nodes, for the two loads selected. *)
Lemma drawing_highlights_selection_witness :
  catalog_ok heap0 nodes_by_priority /\
  run (find_combination nodes_by_priority 200 20) heap0 =
    (Ok (list_to_set [12; 14]%positive, Some 200, true), heap0) /\
  exists net,
    run (plot_network "kw" nodes_by_priority (Some (list_to_set [12; 14]%positive))) heap0 =
      (Ok net, heap0) /\
    length (red_ids net) = size (list_to_set [12; 14]%positive : gset loc) /\
    forall a, a ∈ red_ids net <->
      exists i node, a = Z.of_nat i /\ all_nodes nodes_by_priority !! i = Some node /\
        node ∈ (list_to_set [12; 14]%positive : gset loc).
Proof.
  assert (Hrun : run (find_combination nodes_by_priority 200 20) heap0 =
                 (Ok (list_to_set [12; 14]%positive, Some 200, true), heap0))
    by (vm_compute; reflexivity).
  split; [exact source_catalog_ok|]. split; [exact Hrun|].
  eexists. split; [exact (plot_network_run "kw" nodes_by_priority _ heap0
                            (catalog_ok_listed _ _ source_catalog_ok))|].
  exact (drawing_highlights_selection "kw" nodes_by_priority 200 20 heap0 _ _ _ heap0 _ heap0
           source_catalog_ok Hrun
           (plot_network_run "kw" nodes_by_priority _ heap0
              (catalog_ok_listed _ _ source_catalog_ok))).
Defined.

(** * The log *)

(** ** Strings *)

Lemma str_app_cons (x : ascii) (a b : string) : String x a +:+ b = String x (a +:+ b).
Proof. reflexivity. Qed.

Lemma str_app_nil_l (a : string) : EmptyString +:+ a = a.
Proof. reflexivity. Qed.

Lemma str_app_assoc (a b c : string) : (a +:+ b) +:+ c = a +:+ (b +:+ c).
Proof. induction a as [|x a IH]; [reflexivity|]. by rewrite !str_app_cons, IH. Qed.

Lemma str_app_nil_r (a : string) : a +:+ EmptyString = a.
Proof. induction a as [|x a IH]; [reflexivity|]. by rewrite str_app_cons, IH. Qed.

Lemma all_chars_app P (a b : string) :
  all_chars P (a +:+ b) = all_chars P a && all_chars P b.
Proof.
  induction a as [|x a IH]; [reflexivity|].
  rewrite str_app_cons. simpl. by rewrite IH, andb_assoc.
Qed.

Lemma last_char_app (a b : string) :
  last_char (a +:+ b) = match last_char b with Some c => Some c | None => last_char a end.
Proof.
  induction a as [|x a IH]; [rewrite str_app_nil_l; by destruct (last_char b)|].
  rewrite str_app_cons. simpl. rewrite IH.
  destruct (last_char b); [done|]. reflexivity.
Qed.

Lemma universal_newlines_plain (s : string) :
  all_chars (fun c => negb (Ascii.eqb c "013")) s = true -> universal_newlines s = s.
Proof.
  induction s as [|a s IH]; [reflexivity|]. simpl.
  intros [Ha Hs]%andb_true_iff. apply negb_true_iff in Ha. rewrite Ha.
  by rewrite IH.
Qed.

Lemma lstrip_keep (s : string) :
  match s with String a _ => is_space a = false | EmptyString => True end -> lstrip s = s.
Proof. destruct s as [|a s]; [done|]. simpl. by intros ->. Qed.

Lemma rstrip_keep (s : string) :
  match last_char s with Some a => is_space a = false | None => True end -> rstrip s = s.
Proof.
  induction s as [|a s IH]; [done|]. simpl.
  destruct (last_char s) as [b|] eqn:Elast.
  - intros Hb. rewrite IH by done. destruct s; [discriminate|done].
  - intros Ha. destruct s as [|b s]; [|simpl in Elast; by destruct (last_char s)].
    simpl. by rewrite Ha.
Qed.

Lemma rstrip_app (a b : string) :
  rstrip b <> EmptyString -> rstrip (a +:+ b) = a +:+ rstrip b.
Proof.
  intros Hb. induction a as [|x a IH]; [reflexivity|].
  rewrite !str_app_cons. simpl. rewrite IH.
  destruct (a +:+ rstrip b) as [|y r] eqn:E; [|done].
  destruct a; [|discriminate]. rewrite str_app_nil_l in E. done.
Qed.

Lemma rstrip_line (s : string) :
  match last_char s with Some a => is_space a = false | None => False end ->
  rstrip (s +:+ nl) = s.
Proof.
  induction s as [|a s IH]; [done|]. rewrite str_app_cons. simpl.
  destruct (last_char s) as [b|] eqn:Elast.
  - intros Hb. rewrite IH by done. destruct s; [discriminate|done].
  - intros Ha. destruct s as [|b s]; [|simpl in Elast; by destruct (last_char s)].
    simpl. by rewrite Ha.
Qed.

Lemma split_on_plain (c : ascii) (s : string) :
  all_chars (fun a => negb (Ascii.eqb a c)) s = true -> split_on c s = [s].
Proof.
  induction s as [|a s IH]; [reflexivity|]. simpl.
  intros [Ha Hs]%andb_true_iff. apply negb_true_iff in Ha. rewrite Ha.
  by rewrite IH.
Qed.

Lemma split_on_line (c : ascii) (s rest : string) :
  all_chars (fun a => negb (Ascii.eqb a c)) s = true ->
  split_on c (s +:+ String c rest) = s :: split_on c rest.
Proof.
  induction s as [|a s IH].
  - intros _. simpl. by rewrite Ascii.eqb_refl.
  - rewrite str_app_cons. simpl.
    intros [Ha Hs]%andb_true_iff. apply negb_true_iff in Ha. rewrite Ha.
    by rewrite IH.
Qed.

Lemma str_in_app_r (p a b : string) : str_in p b = true -> str_in p (a +:+ b) = true.
Proof.
  intros Hb. induction a as [|x a IH]; [done|].
  rewrite str_app_cons. simpl. rewrite IH. apply orb_true_r.
Qed.

Lemma starts_with_app (p s : string) : starts_with p (p +:+ s) = true.
Proof.
  induction p as [|x p IH]; [by destruct s|].
  rewrite str_app_cons. simpl. by rewrite Ascii.eqb_refl, IH.
Qed.

Lemma str_drop_app (p s : string) : str_drop (String.length p) (p +:+ s) = s.
Proof. induction p as [|x p IH]; [by destruct s|]. simpl. exact IH. Qed.

(** ** The file and its lines *)

Lemma logged_text (es : list (string * string)) (text : string) :
  logged es (Some text) = Some (text +:+ text_of es).
Proof.
  revert text. induction es as [|e es IH]; intros text.
  - simpl. by rewrite str_app_nil_r.
  - change (logged (e :: es) (Some text))
      with (logged es (Some (text +:+ (e.1 +:+ " - " +:+ e.2 +:+ nl)))).
    rewrite IH. f_equal. simpl text_of. unfold entry_line. by rewrite !str_app_assoc.
Qed.

Lemma logged_text_new (es : list (string * string)) (log_file : option string) :
  log_file = None \/ log_file = Some EmptyString ->
  es <> [] ->
  logged es log_file = Some (text_of es).
Proof.
  intros Hstart Hne. destruct es as [|e es]; [done|].
  assert (Hfirst : log_to_file e.1 e.2 log_file = Some (entry_line e +:+ nl)).
  { destruct Hstart as [-> | ->]; unfold log_to_file, entry_line;
      by rewrite str_app_nil_l, !str_app_assoc. }
  change (logged (e :: es) log_file) with (logged es (log_to_file e.1 e.2 log_file)).
  rewrite Hfirst, logged_text. simpl text_of. by rewrite str_app_assoc.
Qed.

Lemma clean_stamp_spec (ts : string) :
  clean_stamp ts = true ->
  all_chars plain ts = true /\
  (exists a rest, ts = String a rest /\ is_space a = false) /\
  str_in " -" ts = false /\
  (exists a, last_char ts = Some a /\ a <> " "%char).
Proof.
  unfold clean_stamp. rewrite !andb_true_iff.
  intros [[[Hplain Hfirst] Hin] Hlast]. split; [done|]. split; [|split].
  - destruct ts as [|a rest]; [discriminate|]. exists a, rest.
    split; [done|]. by apply negb_true_iff.
  - by apply negb_true_iff.
  - destruct (last_char ts) as [a|]; [|discriminate]. exists a. split; [done|].
    apply negb_true_iff in Hlast. by destruct (Ascii.eqb_spec a " ").
Qed.

Lemma clean_message_spec (msg : string) :
  clean_message msg = true ->
  all_chars plain msg = true /\ exists a, last_char msg = Some a /\ is_space a = false.
Proof.
  unfold clean_message. rewrite andb_true_iff. intros [Hplain Hlast].
  split; [done|]. destruct (last_char msg) as [a|]; [|discriminate].
  exists a. split; [done|]. by apply negb_true_iff.
Qed.

Lemma entry_line_plain (e : string * string) :
  clean_entry e = true -> all_chars plain (entry_line e) = true.
Proof.
  unfold clean_entry. rewrite andb_true_iff.
  intros [[Hts _]%clean_stamp_spec [Hmsg _]%clean_message_spec].
  unfold entry_line. by rewrite !all_chars_app, Hts, Hmsg.
Qed.

Lemma entry_line_first (e : string * string) :
  clean_entry e = true ->
  exists a rest, entry_line e = String a rest /\ is_space a = false.
Proof.
  unfold clean_entry. rewrite andb_true_iff.
  intros [(_ & (a & rest & Hts & Ha) & _)%clean_stamp_spec _].
  unfold entry_line. rewrite Hts, str_app_cons. eauto.
Qed.

Lemma entry_line_last (e : string * string) :
  clean_entry e = true ->
  exists a, last_char (entry_line e) = Some a /\ is_space a = false.
Proof.
  unfold clean_entry. rewrite andb_true_iff.
  intros [_ (_ & a & Hlast & Ha)%clean_message_spec].
  unfold entry_line. rewrite !last_char_app, Hlast. eauto.
Qed.

Lemma all_chars_impl (P Q : ascii -> bool) (s : string) :
  (forall a, P a = true -> Q a = true) -> all_chars P s = true -> all_chars Q s = true.
Proof.
  intros HPQ. induction s as [|a s IH]; [done|]. simpl.
  intros [Ha Hs]%andb_true_iff. by rewrite (HPQ a Ha), IH.
Qed.

Lemma rstrip_text (es : list (string * string)) :
  es <> [] -> Forall (fun e => clean_entry e = true) es ->
  rstrip (text_of es) = joined es /\ joined es <> EmptyString.
Proof.
  intros Hne Hall. induction Hall as [|e es He Hall IH]; [done|].
  destruct (entry_line_last e He) as (a & Hlast & Ha).
  destruct (entry_line_first e He) as (b & rest & Hfirst & _).
  destruct es as [|e' es].
  - simpl. rewrite str_app_nil_r. split.
    + apply rstrip_line. by rewrite Hlast.
    + by rewrite Hfirst.
  - destruct IH as [IH Hjoined]; [done|].
    change (text_of (e :: e' :: es)) with (entry_line e +:+ nl +:+ text_of (e' :: es)).
    change (joined (e :: e' :: es)) with (entry_line e +:+ nl +:+ joined (e' :: es)).
    rewrite <- !str_app_assoc. rewrite rstrip_app by (by rewrite IH). rewrite IH.
    split; [done|]. by rewrite Hfirst.
Qed.

Lemma strip_text (es : list (string * string)) :
  es <> [] -> Forall (fun e => clean_entry e = true) es ->
  strip (text_of es) = joined es.
Proof.
  intros Hne Hall. unfold strip. destruct (rstrip_text es Hne Hall) as [-> _].
  apply lstrip_keep. destruct Hall as [|e es He Hall]; [done|].
  destruct (entry_line_first e He) as (b & rest & Hfirst & Hb).
  destruct es; simpl; by rewrite Hfirst.
Qed.

Lemma split_joined (es : list (string * string)) :
  es <> [] -> Forall (fun e => clean_entry e = true) es ->
  split_on "010" (joined es) = map entry_line es.
Proof.
  intros Hne Hall. induction Hall as [|e es He Hall IH]; [done|].
  assert (Hplain : all_chars (fun a => negb (Ascii.eqb a "010")) (entry_line e) = true).
  { eapply all_chars_impl; [|by apply entry_line_plain].
    unfold plain. by intros a [[? _]%andb_true_iff _]%andb_true_iff. }
  destruct es as [|e' es].
  - simpl. by apply split_on_plain.
  - change (joined (e :: e' :: es)) with (entry_line e +:+ nl +:+ joined (e' :: es)).
    change (nl +:+ joined (e' :: es)) with (String "010" (joined (e' :: es))).
    rewrite split_on_line by done. rewrite IH by done. reflexivity.
Qed.

Lemma text_plain (es : list (string * string)) :
  Forall (fun e => clean_entry e = true) es ->
  all_chars (fun c => negb (Ascii.eqb c "013")) (text_of es) = true.
Proof.
  induction 1 as [|e es He Hall IH]; [done|]. simpl.
  rewrite !all_chars_app, IH. apply andb_true_iff. split; [|reflexivity].
  eapply all_chars_impl; [|by apply entry_line_plain].
  unfold plain. by intros a [[_ ?]%andb_true_iff _]%andb_true_iff.
Qed.

(** ** A line read back *)

Lemma starts_with_cons (a b : ascii) (p s : string) :
  starts_with (String a p) (String b s) = Ascii.eqb a b && starts_with p s.
Proof. reflexivity. Qed.

Lemma str_in_cons (p : string) (a : ascii) (s : string) :
  str_in p (String a s) = starts_with p (String a s) || str_in p s.
Proof. reflexivity. Qed.

Lemma split_once_cons (sep : string) (a : ascii) (s : string) :
  split_once sep (String a s) =
  if starts_with sep (String a s)
  then [EmptyString; str_drop (String.length sep) (String a s)]
  else match split_once sep s with
       | x :: rest => String a x :: rest
       | [] => [String a EmptyString]
       end.
Proof. reflexivity. Qed.

Lemma split_once_stamp (u msg : string) :
  str_in " -" u = false ->
  match last_char u with Some a => a <> " "%char | None => True end ->
  split_once " - " (u +:+ " - " +:+ msg) = [u; msg].
Proof.
  induction u as [|a u IH]; intros Hin Hlast.
  - rewrite str_app_nil_l. reflexivity.
  - rewrite str_app_cons. rewrite str_in_cons in Hin.
    apply orb_false_iff in Hin as [Hhere Hin].
    assert (Hnot : starts_with " - " (String a (u +:+ " - " +:+ msg)) = false).
    { rewrite starts_with_cons. destruct (Ascii.eqb_spec " " a) as [<-|Hne]; [|done].
      rewrite andb_true_l. destruct u as [|b u].
      - simpl in Hlast. done.
      - rewrite str_app_cons, starts_with_cons.
        destruct (Ascii.eqb_spec "-" b) as [<-|Hne']; [|done].
        rewrite !starts_with_cons, !Ascii.eqb_refl in Hhere. discriminate. }
    rewrite split_once_cons, Hnot, IH; [done|done|].
    simpl in Hlast. by destruct (last_char u).
Qed.

(** Under [sep in s] the split at the first separator has two parts, as the
    sidebar's unpacking into timestamp and message expects. *)
Lemma split_once_two (sep s : string) :
  str_in sep s = true -> exists a b, split_once sep s = [a; b].
Proof.
  induction s as [|c s IH].
  - simpl. rewrite orb_false_r. intros ->. eauto.
  - rewrite str_in_cons, split_once_cons.
    destruct (starts_with sep (String c s)); [eauto|].
    rewrite orb_false_l. intros (a & b & ->)%IH. eauto.
Qed.

Lemma str_in_starts_with (p s : string) : starts_with p s = true -> str_in p s = true.
Proof. intros Hp. destruct s; simpl; by rewrite Hp. Qed.

Lemma show_line_entry (e : string * string) :
  clean_entry e = true -> show_line (entry_line e) = [shown e].
Proof.
  unfold clean_entry. rewrite andb_true_iff.
  intros [(_ & _ & Hin & a & Hlast & Ha)%clean_stamp_spec _].
  unfold show_line, entry_line, shown.
  rewrite (str_in_app_r " - " e.1 (" - " +:+ e.2))
    by apply str_in_starts_with, starts_with_app.
  rewrite split_once_stamp; [by destruct (str_in _ e.2)|done|by rewrite Hlast].
Qed.

(** The sidebar on a file that holds the entries [es] and nothing else. *)
Lemma show_log_logged (log_file : option string) (es : list (string * string)) :
  log_file = None \/ log_file = Some EmptyString ->
  es <> [] ->
  Forall (fun e => clean_entry e = true) es ->
  show_log (logged es log_file) = st_markdown "### Log File Contents:" :: map shown es.
Proof.
  intros Hstart Hne Hall.
  rewrite logged_text_new by done.
  unfold show_log. rewrite universal_newlines_plain by (by apply text_plain).
  rewrite strip_text, split_joined by done. f_equal.
  clear Hne. induction Hall as [|e es He Hall IH]; [done|].
  simpl. rewrite show_line_entry by done. simpl. f_equal. exact IH.
Qed.

Lemma clear_log_file (old : option string) :
  fst (clear_log old) = None \/ fst (clear_log old) = Some EmptyString.
Proof. destruct old; simpl; auto. Qed.

(** X16. After [clear_log], whatever the log held or whether it existed,
    entries logged by [log_to_file] are read back by the sidebar one for
    one and in order: each is shown with its timestamp and message as
    written, as a success when the message contains "shed successfully"
    and as a warning when it does not.  The timestamps and the messages are
    ASCII, on one line and without white space at their ends, and a
    timestamp has no space before a hyphen. *)
Theorem sidebar_shows_logged_entries (old : option string)
    (es : list (string * string)) :
  es <> [] ->
  Forall (fun e => clean_entry e = true) es ->
  show_log (logged es (fst (clear_log old))) =
  st_markdown "### Log File Contents:" ::
  map (fun e =>
         if str_in "shed successfully" e.2
         then st_success (e.1 +:+ " - " +:+ e.2) (Some "✅")
         else st_warning (e.1 +:+ " - " +:+ e.2) (Some "❌")) es.
Proof.
  intros Hne Hall. by apply show_log_logged; [apply clear_log_file|..].
Qed.

(** ** Formatted integers *)

Lemma pretty_N_char_numeral (x : N) : numeral_char (pretty_N_char x) = true.
Proof. unfold pretty_N_char. by repeat case_match. Qed.

Lemma pretty_N_go_chars (x : N) (s : string) :
  all_chars numeral_char s = true -> all_chars numeral_char (pretty_N_go x s) = true.
Proof.
  revert s. induction (N.lt_wf_0 x) as [x _ IH]; intros s Hs.
  assert (x = 0 \/ 0 < x)%N as [->|Hpos] by lia.
  - by rewrite pretty_N_go_0.
  - rewrite pretty_N_go_step by done. apply IH.
    + by apply N.div_lt.
    + simpl. by rewrite pretty_N_char_numeral.
Qed.

Lemma pretty_N_go_nonempty (x : N) (s : string) :
  s <> EmptyString \/ (0 < x)%N -> pretty_N_go x s <> EmptyString.
Proof.
  revert s. induction (N.lt_wf_0 x) as [x _ IH]; intros s Hs.
  assert (x = 0 \/ 0 < x)%N as [->|Hpos] by lia.
  - rewrite pretty_N_go_0. destruct Hs as [?|?]; [done|lia].
  - rewrite pretty_N_go_step by done. apply IH; [by apply N.div_lt|by left].
Qed.

Lemma pretty_Z_numeral (z : Z) :
  all_chars numeral_char (pretty z) = true /\ pretty z <> EmptyString.
Proof.
  assert (Hpos : forall p : positive,
    all_chars numeral_char (pretty p) = true /\ pretty p <> EmptyString).
  { intros p. unfold pretty, pretty_positive, pretty, pretty_N.
    case_decide; [done|]. split.
    - by apply pretty_N_go_chars.
    - apply pretty_N_go_nonempty. right. lia. }
  destruct z as [|p|p]; [done|apply Hpos|].
  destruct (Hpos p) as [Hc Hne]. unfold pretty, pretty_Z. split.
  - by rewrite all_chars_app, Hc.
  - done.
Qed.

(** ** A pattern and the integers of a message *)

Section gap.
Context (Q : ascii -> bool) (p : string).
Context (Hp : all_chars (fun c => negb (Q c)) p = true) (Hne : p <> EmptyString).

Lemma starts_with_numeral (c : ascii) (s : string) :
  Q c = true -> starts_with p (String c s) = false.
Proof using Hp Hne.
  intros Hc. destruct p as [|a p']; [done|].
  rewrite starts_with_cons. simpl in Hp. apply andb_true_iff in Hp as [Ha _].
  destruct (Ascii.eqb_spec a c) as [->|?]; [|done].
  rewrite Hc in Ha. discriminate.
Qed.

Lemma str_in_skip (n y : string) :
  all_chars Q n = true -> str_in p (n +:+ y) = str_in p y.
Proof using Hp Hne.
  induction n as [|c n IH]; [done|]. simpl all_chars.
  intros [Hc Hn]%andb_true_iff.
  by rewrite str_app_cons, str_in_cons, starts_with_numeral, IH.
Qed.
End gap.

Lemma starts_with_app_l (p x z : string) :
  starts_with p x = true -> starts_with p (x +:+ z) = true.
Proof.
  revert x. induction p as [|a p IH]; intros x; [done|].
  destruct x as [|b x]; [done|]. rewrite str_app_cons, !starts_with_cons.
  intros [-> Hp]%andb_true_iff. by rewrite IH.
Qed.

Lemma starts_with_before (Q : ascii -> bool) (p x : string) (c : ascii) (z : string) :
  all_chars (fun c => negb (Q c)) p = true -> Q c = true ->
  starts_with p (x +:+ String c z) = true -> starts_with p x = true.
Proof.
  revert x. induction p as [|a p IH]; intros x Hp Hc; [done|].
  simpl in Hp. apply andb_true_iff in Hp as [Ha Hp].
  destruct x as [|b x].
  - rewrite str_app_nil_l, starts_with_cons.
    destruct (Ascii.eqb_spec a c) as [->|?]; [|done]. rewrite Hc in Ha. discriminate.
  - rewrite str_app_cons, !starts_with_cons.
    intros [-> Hrest]%andb_true_iff. by rewrite (IH x).
Qed.

(** A pattern without digit or minus sign is found in a text around a
    formatted integer only before or after the integer. *)
Lemma str_in_around (Q : ascii -> bool) (p x n y : string) :
  all_chars (fun c => negb (Q c)) p = true -> p <> EmptyString ->
  all_chars Q n = true -> n <> EmptyString ->
  str_in p (x +:+ n +:+ y) = str_in p x || str_in p y.
Proof.
  intros Hp Hne Hn Hnn. induction x as [|b x IH].
  - rewrite str_app_nil_l, (str_in_skip Q p Hp Hne) by done.
    destruct p; [done|]. reflexivity.
  - rewrite str_app_cons, !str_in_cons, IH.
    destruct (starts_with p (String b (x +:+ n +:+ y))) eqn:E.
    + destruct n as [|c n]; [done|]. simpl in Hn. apply andb_true_iff in Hn as [Hc _].
      rewrite <- str_app_cons, str_app_cons in E.
      change (String b (x +:+ String c n +:+ y)) with (String b x +:+ String c (n +:+ y)) in E.
      by rewrite (starts_with_before Q p (String b x) c (n +:+ y) Hp Hc E).
    + destruct (starts_with p (String b x)) eqn:E'; [|by rewrite orb_assoc].
      apply (starts_with_app_l p (String b x) (n +:+ y)) in E'.
      rewrite str_app_cons in E'. congruence.
Qed.

(** ** The message of a run *)

Lemma numeral_plain (s : string) :
  all_chars numeral_char s = true -> all_chars plain s = true.
Proof.
  apply all_chars_impl. intros a Ha. unfold numeral_char in Ha. unfold plain.
  by repeat case_match.
Qed.

Lemma log_message_found t tol qun (sel : gset loc) p :
  sel <> ∅ -> str_in "shed successfully" (log_message t tol qun sel p) = true.
Proof.
  intros Hsel. unfold log_message. rewrite bool_decide_true by done.
  repeat (apply str_in_app_r). reflexivity.
Qed.

Lemma log_message_not_found t tol qun p :
  qun = "Kw" \/ qun = "kw" \/ qun = "kvar" ->
  str_in "shed successfully" (log_message t tol qun ∅ p) = false.
Proof.
  intros Hqun. unfold log_message. rewrite bool_decide_false by (by intros []).
  destruct (pretty_Z_numeral t) as [Ht Htne]. destruct (pretty_Z_numeral tol) as [Htol Htolne].
  rewrite (str_in_around numeral_char) by done.
  destruct Hqun as [->|[->| ->]].
  - change (" " +:+ "Kw" +:+ " with tolerance " +:+ ?r) with (" Kw with tolerance " +:+ r).
    by rewrite (str_in_around numeral_char).
  - change (" " +:+ "kw" +:+ " with tolerance " +:+ ?r) with (" kw with tolerance " +:+ r).
    by rewrite (str_in_around numeral_char).
  - change (" " +:+ "kvar" +:+ " with tolerance " +:+ ?r) with (" kvar with tolerance " +:+ r).
    by rewrite (str_in_around numeral_char).
Qed.

Lemma log_message_clean t tol qun (sel : gset loc) p :
  qun = "Kw" \/ qun = "kw" \/ qun = "kvar" ->
  clean_message (log_message t tol qun sel p) = true.
Proof.
  intros Hqun.
  assert (Hnum : forall z : Z, all_chars plain (pretty z) = true).
  { intros z. apply numeral_plain, pretty_Z_numeral. }
  assert (Hpow : all_chars plain
                   match p with Some p0 => pretty p0 | None => "None" end = true).
  { destruct p; [apply Hnum | reflexivity]. }
  unfold clean_message, log_message. case_bool_decide.
  - rewrite !last_char_app, !all_chars_app, !Hnum, Hpow.
    destruct Hqun as [->|[->| ->]]; reflexivity.
  - rewrite !last_char_app, !all_chars_app, !Hnum.
    destruct Hqun as [->|[->| ->]]; reflexivity.
Qed.

(** ** A run, logged and shown *)

Lemma logged_snoc (es : list (string * string)) (ts msg : string) (log_file : option string) :
  log_to_file ts msg (logged es log_file) = logged (es ++ [(ts, msg)]) log_file.
Proof. unfold logged. by rewrite foldl_app. Qed.

(** The entry of a run as the sidebar shows it. *)
Lemma shown_run ts t tol qun (sel : gset loc) p (found : bool) :
  qun = "Kw" \/ qun = "kw" \/ qun = "kvar" ->
  (found = true /\ sel <> ∅) \/ (found = false /\ sel = ∅) ->
  shown (ts, log_message t tol qun sel p) =
  if found
  then st_success (ts +:+ " - " +:+ log_message t tol qun sel p) (Some "✅")
  else st_warning (ts +:+ " - " +:+ log_message t tol qun sel p) (Some "❌").
Proof.
  intros Hqun [[-> Hsel]|[-> ->]]; unfold shown; simpl.
  - by rewrite log_message_found.
  - by rewrite log_message_not_found.
Qed.

(** X17. On a tier catalog, with the unit one of the three the page sets
    and a timestamp of the format of [log_to_file], a run of the handler
    returns, logs one entry and leaves the earlier entries as they were:
    the sidebar then shows the earlier entries followed by the entry of the
    run, as a success when [find_combination] found a combination and as a
    warning when it found none. *)
Theorem run_is_logged_and_shown (ts qun : string) (nbp : gmap Z (list loc)) (t tol : Z)
    (h : heap) (old : option string) (es : list (string * string)) :
  catalog_ok h nbp ->
  qun = "Kw" \/ qun = "kw" \/ qun = "kvar" ->
  clean_stamp ts = true ->
  Forall (fun e => clean_entry e = true) es ->
  exists sel p found net log',
    run (find_combination nbp t tol) h = (Ok (sel, p, found), h) /\
    run (run_load_shedding ts qun nbp t tol (logged es (fst (clear_log old)))) h =
      (Ok (net, log'), h) /\
    show_log log' =
      st_markdown "### Log File Contents:" ::
      map shown es ++
      [if found
       then st_success (ts +:+ " - " +:+ log_message t tol qun sel p) (Some "✅")
       else st_warning (ts +:+ " - " +:+ log_message t tol qun sel p) (Some "❌")].
Proof.
  intros Hok Hqun Hts Hes.
  assert (Hsel : exists sel p found,
    run (find_combination nbp t tol) h = (Ok (sel, p, found), h) /\
    ((found = true /\ sel <> ∅) \/ (found = false /\ sel = ∅))).
  { destruct (find_combination_outcome h nbp Hok t tol)
      as [[Hnone _]|(r & comb & _ & _ & Hc & _ & Hfound)].
    - exists ∅, None, false. split; [done|]. by right.
    - exists (list_to_set comb), (Some (total h comb)), true. split; [done|]. left.
      split; [done|]. apply elem_of_enumeration in Hc as [_ Hne].
      destruct comb as [|x c]; [done|]. intros Hempty.
      assert (Hx : x ∈ (list_to_set (x :: c) : gset loc)) by (apply elem_of_list_to_set; by left).
      rewrite Hempty in Hx. by apply not_elem_of_empty in Hx. }
  destruct Hsel as (sel & p & found & Hrun & Hfound).
  pose proof (plot_network_run qun nbp (Some sel) h (catalog_ok_listed h nbp Hok)) as Hplot.
  exists sel, p, found. eexists. eexists. split; [exact Hrun|]. split.
  - unfold run, run_load_shedding in *. unfold_monad. rewrite Hrun. simpl. rewrite Hplot.
    reflexivity.
  - rewrite logged_snoc, show_log_logged.
    + rewrite map_app. change (map shown [(ts, log_message t tol qun sel p)])
        with [shown (ts, log_message t tol qun sel p)].
      by rewrite (shown_run ts t tol qun sel p found).
    + apply clear_log_file.
    + by destruct es.
    + apply Forall_app. split; [done|]. apply Forall_singleton.
      unfold clean_entry. simpl. by rewrite Hts, log_message_clean.
Qed.

(** ** The log on examples *)

(** X16 on two entries logged after the log was cleared. *)
Lemma sidebar_shows_logged_entries_witness :
  [("2026-11-03 10:15:00", "200 kw was shed successfully.");
   ("2026-11-03 10:16:30", "No valid combination found.")] <> [] /\
  Forall (fun e => clean_entry e = true)
    [("2026-11-03 10:15:00", "200 kw was shed successfully.");
     ("2026-11-03 10:16:30", "No valid combination found.")] /\
  show_log (logged [("2026-11-03 10:15:00", "200 kw was shed successfully.");
                    ("2026-11-03 10:16:30", "No valid combination found.")]
              (fst (clear_log (Some "an older entry")))) =
  [st_markdown "### Log File Contents:";
   st_success "2026-11-03 10:15:00 - 200 kw was shed successfully." (Some "✅");
   st_warning "2026-11-03 10:16:30 - No valid combination found." (Some "❌")].
Proof.
  assert (Hne : [("2026-11-03 10:15:00", "200 kw was shed successfully.");
                 ("2026-11-03 10:16:30", "No valid combination found.")]
                <> ([] : list (string * string))) by discriminate.
  assert (Hall : Forall (fun e => clean_entry e = true)
    [("2026-11-03 10:15:00", "200 kw was shed successfully.");
     ("2026-11-03 10:16:30", "No valid combination found.")]).
  { repeat (apply Forall_cons; split; [vm_compute; reflexivity|]). by apply Forall_nil. }
  split; [exact Hne|]. split; [exact Hall|].
  exact (sidebar_shows_logged_entries (Some "an older entry") _ Hne Hall).
Defined.

(** X17 on the program's catalog: a run with target 200 and tolerance 20
    after a logged failure. *)
Lemma run_is_logged_and_shown_witness :
  catalog_ok heap0 nodes_by_priority /\
  ("kw" = "Kw" \/ "kw" = "kw" \/ "kw" = "kvar") /\
  clean_stamp "2026-11-03 10:15:00" = true /\
  Forall (fun e => clean_entry e = true)
    [("2026-11-03 10:14:00", "No valid combination found.")] /\
  exists sel p found net log',
    run (find_combination nodes_by_priority 200 20) heap0 = (Ok (sel, p, found), heap0) /\
    run (run_load_shedding "2026-11-03 10:15:00" "kw" nodes_by_priority 200 20
           (logged [("2026-11-03 10:14:00", "No valid combination found.")]
              (fst (clear_log None)))) heap0 = (Ok (net, log'), heap0) /\
    show_log log' =
      st_markdown "### Log File Contents:" ::
      map shown [("2026-11-03 10:14:00", "No valid combination found.")] ++
      [if found
       then st_success ("2026-11-03 10:15:00" +:+ " - " +:+
                        log_message 200 20 "kw" sel p) (Some "✅")
       else st_warning ("2026-11-03 10:15:00" +:+ " - " +:+
                        log_message 200 20 "kw" sel p) (Some "❌")].
Proof.
  assert (Hqun : "kw" = "Kw" \/ "kw" = "kw" \/ "kw" = "kvar") by (right; left; reflexivity).
  assert (Hts : clean_stamp "2026-11-03 10:15:00" = true) by (vm_compute; reflexivity).
  assert (Hes : Forall (fun e => clean_entry e = true)
                  [("2026-11-03 10:14:00", "No valid combination found.")]).
  { apply Forall_cons. split; [vm_compute; reflexivity|]. by apply Forall_nil. }
  split; [exact source_catalog_ok|]. split; [exact Hqun|]. split; [exact Hts|].
  split; [exact Hes|].
  exact (run_is_logged_and_shown "2026-11-03 10:15:00" "kw" nodes_by_priority 200 20
           heap0 None _ source_catalog_ok Hqun Hts Hes).
Defined.
